(** * Advent of Code 2023, day 2 (conra2010/aoc23p02): a shallow embedding of
    [src/lib.rs] and the verification of its specification.

    Modelling choices:
    - Rust strings are modelled as [string] (ASCII); [char::is_whitespace]
      is restricted to its ASCII members (TAB, LF, VT, FF, CR, SPACE).
    - [usize] is a 64-bit unsigned integer, held in [Z]. Arithmetic on it
      ([+=], [*=]) panics on overflow in a debug build and wraps modulo 2^64
      in a release build; both profiles are modelled ([profile]).
    - A [panic!], a failed [assert_eq!], a failed [expect] and an
      out-of-range slice index all abort the program: the [Panic] outcome.
    - The file system is abstracted: a file is either missing (the
      [File::open] error) or a stream of [read_line] results. *)

From Stdlib Require Import ZArith String Ascii List Bool Lia Arith.
From Stdlib Require Import Sorting.Permutation.
Import ListNotations.

Open Scope string_scope.

(** ** Outcomes: [Result<_, io::Error>] together with aborts *)

Inductive io_error := OpenFailed | ReadFailed.

Inductive panic_kind :=
| IndexOutOfBounds   (* [tokens[i]] with [i >= tokens.len()] *)
| AssertFailed       (* [assert_eq!("Game", tokens[0])] *)
| ParseFailed        (* [.parse::<usize>().expect(..)] *)
| NoMatch            (* [panic!("failed to match colour name")] *)
| Overflow.          (* [usize] arithmetic overflow (debug build) *)

Inductive outcome (A : Type) : Type :=
| Ok (a : A)
| Err (e : io_error)
| Panic (k : panic_kind).
Arguments Ok {A} a.
Arguments Err {A} e.
Arguments Panic {A} k.

Definition bind {A B} (m : outcome A) (f : A -> outcome B) : outcome B :=
  match m with
  | Ok a => f a
  | Err e => Err e
  | Panic k => Panic k
  end.

Notation "x <- m ;; k" := (bind m (fun x => k))
  (at level 61, m at next level, right associativity).

(** [Option::expect]: [None] aborts. *)
Definition expect {A} (o : option A) (k : panic_kind) : outcome A :=
  match o with Some a => Ok a | None => Panic k end.

(** Slice indexing [v[i]]. *)
Definition index {A} (v : list A) (i : nat) : outcome A :=
  expect (nth_error v i) IndexOutOfBounds.

(** ** [usize] *)

Definition usize_max : Z := (2 ^ 64 - 1)%Z.

Inductive profile := Debug | Release.

Definition wrap (prof : profile) (z : Z) : outcome Z :=
  if (z <=? usize_max)%Z then Ok z
  else match prof with
       | Debug => Panic Overflow
       | Release => Ok (z mod 2 ^ 64)%Z
       end.

Definition add_usize (prof : profile) (a b : Z) : outcome Z := wrap prof (a + b)%Z.
Definition mul_usize (prof : profile) (a b : Z) : outcome Z := wrap prof (a * b)%Z.

(** [<usize as FromStr>::from_str]: an optional leading ['+'], then at least
    one decimal digit; every step [acc * 10 + d] is checked against
    [usize::MAX] (the checked multiplication fails exactly when the checked
    addition that follows it would). *)
Definition digit_value (c : ascii) : option Z :=
  let n := nat_of_ascii c in
  if ((48 <=? n) && (n <=? 57))%nat then Some (Z.of_nat n - 48)%Z else None.

Fixpoint parse_digits (acc : Z) (s : string) : option Z :=
  match s with
  | EmptyString => Some acc
  | String c r =>
      match digit_value c with
      | None => None
      | Some d =>
          let acc' := (acc * 10 + d)%Z in
          if (acc' <=? usize_max)%Z then parse_digits acc' r else None
      end
  end.

Definition parse_usize (s : string) : option Z :=
  match s with
  | EmptyString => None
  | String c r =>
      if Ascii.eqb c "+"%char then
        match r with
        | EmptyString => None
        | _ => parse_digits 0 r
        end
      else parse_digits 0 s
  end.

(** ** [InfiniteLinesReader::init] *)

Inductive read_event :=
| Chunk (s : string)   (* [read_line] appended [s]; [""] is [Ok(0)], i.e. EOF *)
| ReadError.           (* [read_line] returned [Err] *)

Inductive file :=
| Missing                          (* [File::open] fails *)
| Present (evs : list read_event). (* successive [read_line] results *)

Definition newline : ascii := "010"%char.

(** [trim_end_matches("\n")]: strips every trailing newline. *)
Fixpoint trim_end_newlines (s : string) : string :=
  match s with
  | EmptyString => EmptyString
  | String c r =>
      let r' := trim_end_newlines r in
      if Ascii.eqb c newline && String.eqb r' EmptyString then EmptyString
      else String c r'
  end.

Fixpoint read_lines (evs : list read_event) : outcome (list string) :=
  match evs with
  | [] => Ok []
  | Chunk s :: rest =>
      if (String.length s =? 0)%nat then Ok []
      else ls <- read_lines rest ;; Ok (trim_end_newlines s :: ls)
  | ReadError :: _ => Err ReadFailed
  end.

Definition init (f : file) : outcome (list string) :=
  match f with
  | Missing => Err OpenFailed
  | Present evs => read_lines evs
  end.

(** ** Tokenizer:
    [cv.split(&[' ', ',', ':', ';'][..]).map(|t| t.trim()).filter(|t| t.len() > 0)] *)

Definition is_delim (c : ascii) : bool :=
  Ascii.eqb c " " || Ascii.eqb c "," || Ascii.eqb c ":" || Ascii.eqb c ";".

Definition is_whitespace (c : ascii) : bool :=
  let n := nat_of_ascii c in ((9 <=? n) && (n <=? 13))%nat || (n =? 32)%nat.

(** [str::split] with a set of chars: the pieces between consecutive
    delimiters; [""] yields one empty piece. *)
Fixpoint split_delims (s : string) : list string :=
  match s with
  | EmptyString => [EmptyString]
  | String c r =>
      let ps := split_delims r in
      if is_delim c then EmptyString :: ps
      else match ps with
           | p :: ps' => String c p :: ps'
           | [] => [String c EmptyString]
           end
  end.

Fixpoint trim_start (s : string) : string :=
  match s with
  | EmptyString => EmptyString
  | String c r => if is_whitespace c then trim_start r else s
  end.

Fixpoint trim_end (s : string) : string :=
  match s with
  | EmptyString => EmptyString
  | String c r =>
      let r' := trim_end r in
      if is_whitespace c && String.eqb r' EmptyString then EmptyString
      else String c r'
  end.

Definition trim (s : string) : string := trim_end (trim_start s).

Definition tokenize (cv : string) : list string :=
  filter (fun t => (0 <? String.length t)%nat) (map trim (split_delims cv)).

(** ** [solve]: validity mode *)

(** The inner [while r < tokens.len()] loop of [solve]; [rest] is
    [tokens[r..]], so [rest]'s first two elements are [tokens[r]] and
    [tokens[r + 1]]. The loop [break]s with [valid = false] at the first
    pair over its colour's ceiling. *)
Fixpoint check_pairs (rest : list string) : outcome bool :=
  match rest with
  | [] => Ok true
  | v :: rest' =>
      value <- expect (parse_usize v) ParseFailed ;;
      match rest' with
      | [] => Panic IndexOutOfBounds
      | colour :: rest'' =>
          if String.eqb colour "red" then
            (if (value >? 12)%Z then Ok false else check_pairs rest'')
          else if String.eqb colour "green" then
            (if (value >? 13)%Z then Ok false else check_pairs rest'')
          else if String.eqb colour "blue" then
            (if (value >? 14)%Z then Ok false else check_pairs rest'')
          else Panic NoMatch
      end
  end.

(** The body of [solve]'s outer loop for one line's tokens: the game id
    and its validity. *)
Definition solve_line (tokens : list string) : outcome (Z * bool) :=
  t0 <- index tokens 0 ;;
  if String.eqb "Game" t0 then
    t1 <- index tokens 1 ;;
    id <- expect (parse_usize t1) ParseFailed ;;
    valid <- check_pairs (skipn 2 tokens) ;;
    Ok (id, valid)
  else Panic AssertFailed.

(** The outer loop of [solve] over the lines in file order; the
    [PagedIterator] labels [(p, n)] are only printed. *)
Fixpoint solve_lines (prof : profile) (lines : list string) (rx : Z)
  : outcome Z :=
  match lines with
  | [] => Ok rx
  | cv :: rest =>
      r <- solve_line (tokenize cv) ;;
      let '(id, valid) := r in
      if valid then
        rx' <- add_usize prof rx id ;;
        solve_lines prof rest rx'
      else solve_lines prof rest rx
  end.

Definition solve (prof : profile) (f : file) : outcome Z :=
  lines <- init f ;;
  solve_lines prof lines 0%Z.

(** ** [reduce] and [OptionExt] *)

Definition reduce {T : Type} (a b : option T) (f : T -> T -> T) : option T :=
  match a, b with
  | Some l, Some r => Some (f l r)
  | Some l, None => Some l
  | None, Some r => Some r
  | None, None => None
  end.

Class OptionExt (Self T : Type) := {
  ext_reduce : Self -> option T -> (T -> T -> T) -> option T
}.

#[export] Instance OptionExt_option (T : Type) : OptionExt (option T) T := {
  ext_reduce self other f := reduce self other f
}.

(** ** [ext_solve]: power mode *)

(** [mvalues[index] = ...] on the three-element array. *)
Fixpoint set_nth {A} (l : list A) (i : nat) (x : A) : list A :=
  match l, i with
  | [], _ => []
  | _ :: l', O => x :: l'
  | y :: l', S i' => y :: set_nth l' i' x
  end.

Definition colour_index (colour : string) : outcome nat :=
  if String.eqb colour "red" then Ok 0%nat
  else if String.eqb colour "green" then Ok 1%nat
  else if String.eqb colour "blue" then Ok 2%nat
  else Panic NoMatch.

(** The inner loop of [ext_solve]; [rest] is [tokens[r..]]. *)
Fixpoint ext_pairs (rest : list string) (mvalues : list (option Z))
  : outcome (list (option Z)) :=
  match rest with
  | [] => Ok mvalues
  | v :: rest' =>
      value <- expect (parse_usize v) ParseFailed ;;
      match rest' with
      | [] => Panic IndexOutOfBounds
      | colour :: rest'' =>
          i <- colour_index colour ;;
          ext_pairs rest''
            (set_nth mvalues i
               (ext_reduce (nth i mvalues None) (Some value) Z.max))
      end
  end.

(** [for c in mvalues { game_power *= c.unwrap_or(0); }] *)
Fixpoint power_loop (prof : profile) (game_power : Z) (cs : list (option Z))
  : outcome Z :=
  match cs with
  | [] => Ok game_power
  | c :: cs' =>
      gp <- mul_usize prof game_power (match c with Some x => x | None => 0%Z end) ;;
      power_loop prof gp cs'
  end.

Definition ext_line (prof : profile) (tokens : list string) : outcome Z :=
  t0 <- index tokens 0 ;;
  if String.eqb "Game" t0 then
    mvalues <- ext_pairs (skipn 2 tokens) [None; None; None] ;;
    power_loop prof 1%Z mvalues
  else Panic AssertFailed.

Fixpoint ext_lines (prof : profile) (lines : list string) (rx : Z)
  : outcome Z :=
  match lines with
  | [] => Ok rx
  | cv :: rest =>
      game_power <- ext_line prof (tokenize cv) ;;
      rx' <- add_usize prof rx game_power ;;
      ext_lines prof rest rx'
  end.

Definition ext_solve (prof : profile) (f : file) : outcome Z :=
  lines <- init f ;;
  ext_lines prof lines 0%Z.

(** ** Iterators

    A Rust iterator is modelled by its state and its [next] function. [run
    next n s] is the list of the results of [n] successive calls of [next]
    from state [s]. *)

Fixpoint run {St O : Type} (next : St -> option O * St) (n : nat) (s : St)
  : list (option O) :=
  match n with
  | O => []
  | S n' => let '(o, s') := next s in o :: run next n' s'
  end.

(** [run] for a [next] that may abort: the calls stop at the first abort,
    which is the outcome of the whole run. *)
Fixpoint run_outcome {St O : Type} (next : St -> outcome (option O * St))
  (n : nat) (s : St) : outcome (list (option O)) :=
  match n with
  | O => Ok []
  | S n' =>
      r <- next s ;;
      let '(o, s') := r in
      rest <- run_outcome next n' s' ;;
      Ok (o :: rest)
  end.

(** *** [PagedIterator]

    The counters are [usize] in the source. [paged_next] keeps them as
    [nat] and increments them without bound: it is [next] as long as no
    increment reaches 2^64. [paged_next_checked] is [next] exactly: each
    [+= 1] goes through [add_usize], so it aborts (debug) or wraps
    (release) on overflow. *)
Section Paged.
Context {S A : Type}.
Variable inner_next : S -> option A * S.

Record PagedIterator := mkPaged {
  page_length : nat;
  page_number : nat;
  line_number : nat;
  iter : S
}.

Definition paged_init (it : S) (pl : nat) : PagedIterator :=
  mkPaged pl 1 0 it.

Definition paged_next (p : PagedIterator)
  : option (nat * nat * A) * PagedIterator :=
  match inner_next (iter p) with
  | (None, it') =>
      (None, mkPaged (page_length p) (page_number p) (line_number p) it')
  | (Some y, it') =>
      let ln := (line_number p + 1)%nat in
      if (page_length p <? ln)%nat then
        (Some (page_number p + 1, 1, y)%nat,
         mkPaged (page_length p) (page_number p + 1) 1 it')
      else
        (Some (page_number p, ln, y),
         mkPaged (page_length p) (page_number p) ln it')
  end.

(** [counter += 1] on a [usize] counter. *)
Definition incr (prof : profile) (x : nat) : outcome nat :=
  z <- add_usize prof (Z.of_nat x) 1 ;; Ok (Z.to_nat z).

Definition paged_next_checked (prof : profile) (p : PagedIterator)
  : outcome (option (nat * nat * A) * PagedIterator) :=
  match inner_next (iter p) with
  | (None, it') =>
      Ok (None, mkPaged (page_length p) (page_number p) (line_number p) it')
  | (Some y, it') =>
      ln <- incr prof (line_number p) ;;
      if (page_length p <? ln)%nat then
        pn <- incr prof (page_number p) ;;
        Ok (Some (pn, 1, y)%nat, mkPaged (page_length p) pn 1 it')
      else
        Ok (Some (page_number p, ln, y), mkPaged (page_length p) (page_number p) ln it')
  end.
End Paged.

(** *** [InfiniteLinesReader::cycle]: [self.lines.iter().cycle()]

    [slice::Iter] is the list of the remaining elements; [Cycle] keeps a
    copy [orig] of the iterator it was built from and, when the current
    iterator is exhausted, restarts from a fresh clone of it:
    [match self.iter.next() { None => { self.iter = self.orig.clone();
    self.iter.next() } y => y }]. *)
Section Cycle.
Context {A : Type}.

Definition slice_next (it : list A) : option A * list A :=
  match it with
  | [] => (None, [])
  | x :: r => (Some x, r)
  end.

Record Cycle := mkCycle { orig : list A; cur : list A }.

Definition cycle (lines : list A) : Cycle := mkCycle lines lines.

Definition cycle_next (c : Cycle) : option A * Cycle :=
  match slice_next (cur c) with
  | (None, _) =>
      let '(y, it) := slice_next (orig c) in (y, mkCycle (orig c) it)
  | (Some x, it) => (Some x, mkCycle (orig c) it)
  end.
End Cycle.

(** ** Specification-level notions

    A well-formed record: the tokens ["Game"; id; count; colour; ...] with
    every number a valid [usize] and every colour one of the three names. *)

Inductive colour := Red | Green | Blue.

Definition colour_name (c : colour) : string :=
  match c with Red => "red" | Green => "green" | Blue => "blue" end.

Definition colour_eqb (a b : colour) : bool :=
  match a, b with
  | Red, Red | Green, Green | Blue, Blue => true
  | _, _ => false
  end.

(** The limits of validation mode. *)
Definition ceiling (c : colour) : Z :=
  match c with Red => 12 | Green => 13 | Blue => 14 end%Z.

Record game := mkGame { game_id : Z; game_pairs : list (Z * colour) }.

Inductive pair_tokens : list (Z * colour) -> list string -> Prop :=
| pt_nil : pair_tokens [] []
| pt_cons v n col ps ts :
    parse_usize v = Some n ->
    pair_tokens ps ts ->
    pair_tokens ((n, col) :: ps) (v :: colour_name col :: ts).

Definition line_record (line : string) (g : game) : Prop :=
  exists idt pts,
    tokenize line = "Game" :: idt :: pts /\
    parse_usize idt = Some (game_id g) /\
    pair_tokens (game_pairs g) pts.

Definition pairs_valid (ps : list (Z * colour)) : bool :=
  forallb (fun '(n, c) => (n <=? ceiling c)%Z) ps.

(** Sum of the ids of the records all of whose pairs are within limits. *)
Fixpoint validity_sum (gs : list game) : Z :=
  match gs with
  | [] => 0
  | g :: gs' =>
      (if pairs_valid (game_pairs g) then game_id g else 0) + validity_sum gs'
  end%Z.

(** Maximum count of a colour in a record, 0 when the colour is absent. *)
Fixpoint max_count (col : colour) (ps : list (Z * colour)) : Z :=
  match ps with
  | [] => 0%Z
  | (n, c) :: ps' =>
      if colour_eqb c col then Z.max n (max_count col ps')
      else max_count col ps'
  end.

Definition power (g : game) : Z :=
  (max_count Red (game_pairs g) * max_count Green (game_pairs g)
   * max_count Blue (game_pairs g))%Z.

Fixpoint power_sum (gs : list game) : Z :=
  match gs with
  | [] => 0%Z
  | g :: gs' => (power g + power_sum gs')%Z
  end.

(** A check of all pairs of a record without the early [break]: every pair
    is parsed and matched exactly as [solve] does, and the record is valid
    when every pair is within its ceiling. *)
Fixpoint check_all (rest : list string) : outcome bool :=
  match rest with
  | [] => Ok true
  | v :: rest' =>
      value <- expect (parse_usize v) ParseFailed ;;
      match rest' with
      | [] => Panic IndexOutOfBounds
      | colour :: rest'' =>
          ok <- (if String.eqb colour "red" then Ok (value <=? 12)%Z
                 else if String.eqb colour "green" then Ok (value <=? 13)%Z
                 else if String.eqb colour "blue" then Ok (value <=? 14)%Z
                 else Panic NoMatch) ;;
          r <- check_all rest'' ;;
          Ok (ok && r)
      end
  end.

(** A structural violation at the start of a pair token list: a count that
    does not parse, an unpaired trailing count, or an unknown colour. *)
Inductive bad_pairs : list string -> Prop :=
| bad_count v rest :
    parse_usize v = None -> bad_pairs (v :: rest)
| bad_unpaired v n :
    parse_usize v = Some n -> bad_pairs [v]
| bad_colour v n c rest :
    parse_usize v = Some n ->
    (forall col, c <> colour_name col) ->
    bad_pairs (v :: c :: rest).

(** Splitting a line at delimiters: a first piece followed by
    (delimiter, piece) pairs. *)
Fixpoint join (p : string) (rest : list (ascii * string)) : string :=
  match rest with
  | [] => p
  | (d, q) :: rest' => p ++ String d (join q rest')
  end.

Fixpoint str_forallb (f : ascii -> bool) (s : string) : bool :=
  match s with
  | EmptyString => true
  | String c r => f c && str_forallb f r
  end.

Definition delim_free (s : string) : bool :=
  str_forallb (fun c => negb (is_delim c)) s.

(** [t] is [s] with its surrounding whitespace removed. *)
Definition trimmed (s t : string) : Prop :=
  exists w1 w2,
    s = w1 ++ t ++ w2 /\
    str_forallb is_whitespace w1 = true /\
    str_forallb is_whitespace w2 = true /\
    (forall c u, t = String c u -> is_whitespace c = false) /\
    (forall u c, t = u ++ String c EmptyString -> is_whitespace c = false).

(** The running maximum of a colour's counts as [ext_solve] folds it with
    [reduce]: [None] when the colour is absent. *)
Fixpoint opt_max (col : colour) (ps : list (Z * colour)) : option Z :=
  match ps with
  | [] => None
  | (n, c) :: ps' =>
      if colour_eqb c col then reduce (Some n) (opt_max col ps') Z.max
      else opt_max col ps'
  end.

(** Page and line labels of the 1-indexed positions: the [k]-th item
    produced gets page [ceil(k / N)] and line [((k - 1) mod N) + 1]. *)
Definition ceil_div (k n : nat) : nat := (k + n - 1) / n.

Fixpoint label {A : Type} (N k : nat) (xs : list (option A))
  : list (option (nat * nat * A)) :=
  match xs with
  | [] => []
  | None :: xs' => None :: label N k xs'
  | Some x :: xs' =>
      Some (ceil_div k N, (k - 1) mod N + 1, x) :: label N (S k) xs'
  end.

(** The labels with page length 0: the [k]-th item (1-indexed) starts page
    [k + 1] at line 1. *)
Fixpoint label_zero {A : Type} (k : nat) (xs : list (option A))
  : list (option (nat * nat * A)) :=
  match xs with
  | [] => []
  | None :: xs' => None :: label_zero k xs'
  | Some x :: xs' => Some (S k, 1, x)%nat :: label_zero (S k) xs'
  end.

(** The values of [(page_number, line_number)] after [k] items. *)
Definition paged_counters (N k : nat) : nat * nat :=
  match k with
  | O => (1, 0)
  | S j => (ceil_div k N, j mod N + 1)
  end%nat.

(** ** Concrete inputs *)

Definition nl (s : string) : read_event := Chunk (s ++ String newline EmptyString).

Definition sample_file : file :=
  Present [nl "Game 1: 3 blue, 4 red; 1 red, 2 green, 6 blue; 2 green";
           nl "Game 2: 1 blue, 2 green; 3 green, 4 blue, 1 red; 1 green, 1 blue"].

Definition big_ids_file : file :=
  Present [nl "Game 18446744073709551615: 1 red"; nl "Game 1: 1 red"].

Definition big_ids_games : list game :=
  [mkGame 18446744073709551615 [(1, Red)]; mkGame 1 [(1, Red)]]%Z.

Definition big_power_file : file :=
  Present [nl "Game 1: 4294967296 red, 4294967296 green, 1 blue"].

Definition big_power_games : list game :=
  [mkGame 1 [(4294967296, Red); (4294967296, Green); (1, Blue)]]%Z.

Definition absent_blue_file : file :=
  Present [nl "Game 1: 4294967296 red, 4294967296 green"].

Definition absent_blue_games : list game :=
  [mkGame 1 [(4294967296, Red); (4294967296, Green)]]%Z.

(** Unbounded decimal value of a string of digits; [None] on any other
    character. *)
Fixpoint decimal_value (acc : Z) (s : string) : option Z :=
  match s with
  | EmptyString => Some acc
  | String c r =>
      match digit_value c with
      | None => None
      | Some d => decimal_value (acc * 10 + d)%Z r
      end
  end.

(** ** C10: [reduce] *)

(** C10: for every [T] and [f]: [reduce (Some a) (Some b) f = Some (f a b)],
    [reduce (Some a) None f = Some a], [reduce None (Some b) f = Some b],
    [reduce None None f = None]; [None] is a two-sided identity; and the
    [OptionExt] method [a.reduce(b, f)] is [reduce a b f]. *)
Theorem reduce_laws :
  forall (T : Type) (f : T -> T -> T),
    (forall a b, reduce (Some a) (Some b) f = Some (f a b)) /\
    (forall a, reduce (Some a) None f = Some a) /\
    (forall b, reduce None (Some b) f = Some b) /\
    reduce None None f = None /\
    (forall o, reduce None o f = o /\ reduce o None f = o) /\
    (forall a b, ext_reduce a b f = reduce a b f).
Proof.
  intros T f; repeat split; try reflexivity; destruct o; reflexivity.
Qed.

(** ** C3: the sample file *)

(** C3: on the two-line sample, [solve] returns 3 and [ext_solve] returns 60,
    game 1 having power 48 and game 2 power 12 (in both build profiles). *)
Theorem sample_results :
  forall prof,
    solve prof sample_file = Ok 3%Z /\
    ext_solve prof sample_file = Ok 60%Z /\
    ext_line prof (tokenize "Game 1: 3 blue, 4 red; 1 red, 2 green, 6 blue; 2 green")
      = Ok 48%Z /\
    ext_line prof (tokenize "Game 2: 1 blue, 2 green; 3 green, 4 blue, 1 red; 1 green, 1 blue")
      = Ok 12%Z.
Proof. destruct prof; vm_compute; repeat split. Qed.

(** ** Counterexamples *)

Ltac solve_line_record :=
  do 2 eexists; split; [vm_compute; reflexivity|];
  split; [vm_compute; reflexivity|];
  repeat (constructor; [vm_compute; reflexivity|]); constructor.

(** C1 fails for a well-formed file whose sum of valid ids is 2^64: a debug
    build aborts on the overflow of [rx += id], a release build returns the
    sum modulo 2^64, i.e. 0. *)
Lemma validity_sum_overflow :
  init big_ids_file = Ok ["Game 18446744073709551615: 1 red"; "Game 1: 1 red"] /\
  Forall2 line_record ["Game 18446744073709551615: 1 red"; "Game 1: 1 red"]
    big_ids_games /\
  validity_sum big_ids_games = (2 ^ 64)%Z /\
  solve Debug big_ids_file = Panic Overflow /\
  solve Release big_ids_file = Ok 0%Z.
Proof.
  split; [vm_compute; reflexivity|].
  split; [repeat constructor; solve_line_record|].
  vm_compute; repeat split.
Qed.

(** C2 fails for a well-formed one-record file of power 2^64 (the product
    overflows), and for a record without blue whose power is 0 but whose
    partial product [red * green] already overflows in a debug build. *)
Lemma power_sum_overflow :
  init big_power_file = Ok ["Game 1: 4294967296 red, 4294967296 green, 1 blue"] /\
  Forall2 line_record ["Game 1: 4294967296 red, 4294967296 green, 1 blue"]
    big_power_games /\
  power_sum big_power_games = (2 ^ 64)%Z /\
  ext_solve Debug big_power_file = Panic Overflow /\
  ext_solve Release big_power_file = Ok 0%Z /\
  init absent_blue_file = Ok ["Game 1: 4294967296 red, 4294967296 green"] /\
  Forall2 line_record ["Game 1: 4294967296 red, 4294967296 green"]
    absent_blue_games /\
  power_sum absent_blue_games = 0%Z /\
  ext_solve Debug absent_blue_file = Panic Overflow.
Proof.
  split; [vm_compute; reflexivity|].
  split; [repeat constructor; solve_line_record|].
  split; [vm_compute; reflexivity|].
  split; [vm_compute; reflexivity|].
  split; [vm_compute; reflexivity|].
  split; [vm_compute; reflexivity|].
  split; [repeat constructor; solve_line_record|].
  vm_compute; repeat split.
Qed.

(** C4 fails: [solve] does not abort on an unknown colour that follows an
    over-limit pair (it returns [Ok 0]). *)
Lemma structural_violations_not_fatal :
  tokenize "Game 1: 13 red, 2 purple" = app ["Game"; "1"; "13"; "red"] ["2"; "purple"] /\
  bad_pairs ["2"; "purple"] /\
  solve Debug (Present [nl "Game 1: 13 red, 2 purple"]) = Ok 0%Z /\
  solve Release (Present [nl "Game 1: 13 red, 2 purple"]) = Ok 0%Z.
Proof.
  split; [vm_compute; reflexivity|].
  split.
  - apply (bad_colour "2" 2%Z "purple" []); [reflexivity|].
    intros [] H; discriminate H.
  - vm_compute; repeat split.
Qed.

(** C5 fails for page length 0: the first item is labelled page 2, not 1,
    and the labels differ from [ceil(i / N)], [((i-1) mod N) + 1], in both
    build profiles. *)
Lemma paged_zero_page_length :
  run_outcome (paged_next_checked slice_next Debug) 2 (paged_init ["a"; "b"] 0) =
    Ok [Some (2, 1, "a"); Some (3, 1, "b")]%nat /\
  run_outcome (paged_next_checked slice_next Debug) 2 (paged_init ["a"; "b"] 0) <>
    Ok (label 0 1 (run slice_next 2 ["a"; "b"])) /\
  run_outcome (paged_next_checked slice_next Release) 2 (paged_init ["a"; "b"] 0) =
    Ok [Some (2, 1, "a"); Some (3, 1, "b")]%nat.
Proof. vm_compute; split; [reflexivity | split; [discriminate | reflexivity]]. Qed.

(** C6 fails for an empty line source: its cycle yields nothing. *)
Lemma cycle_empty_terminates :
  run cycle_next 3 (cycle ([] : list string)) = [None; None; None].
Proof. reflexivity. Qed.

(** C7 fails: the short-circuit judges invalid a record whose pair after the
    first violation has an unknown colour, on which the check of all pairs
    aborts. *)
Lemma short_circuit_hides_abort :
  check_pairs ["13"; "red"; "2"; "purple"] = Ok false /\
  check_all ["13"; "red"; "2"; "purple"] = Panic NoMatch.
Proof. vm_compute; split; reflexivity. Qed.

(** C9 fails: with a token-less second line, a malformed first line makes
    both entry points abort on the [Game] assertion, not on an index. *)
Lemma empty_line_after_bad_line :
  init (Present [nl "Hello"; nl ""]) = Ok ["Hello"; ""] /\
  tokenize "" = [] /\
  solve Debug (Present [nl "Hello"; nl ""]) = Panic AssertFailed /\
  ext_solve Debug (Present [nl "Hello"; nl ""]) = Panic AssertFailed /\
  solve Release (Present [nl "Hello"; nl ""]) = Panic AssertFailed /\
  ext_solve Release (Present [nl "Hello"; nl ""]) = Panic AssertFailed.
Proof. vm_compute; repeat split. Qed.

(** ** Helper lemmas *)

Lemma usize_max_eq : usize_max = 18446744073709551615%Z.
Proof. reflexivity. Qed.

Lemma digit_value_range : forall c d, digit_value c = Some d -> (0 <= d <= 9)%Z.
Proof.
  unfold digit_value; intros c d H.
  destruct ((48 <=? nat_of_ascii c) && (nat_of_ascii c <=? 57))%nat eqn:E;
    [|discriminate].
  injection H as <-. apply andb_prop in E as [E1 E2].
  apply Nat.leb_le in E1, E2. lia.
Qed.

Lemma parse_digits_range :
  forall s acc n, (0 <= acc <= usize_max)%Z -> parse_digits acc s = Some n ->
  (0 <= n <= usize_max)%Z.
Proof.
  induction s as [|c s IH]; simpl; intros acc n Hacc H.
  - injection H as <-; exact Hacc.
  - destruct (digit_value c) as [d|] eqn:Ed; [|discriminate].
    apply digit_value_range in Ed.
    destruct (acc * 10 + d <=? usize_max)%Z eqn:E; [|discriminate].
    apply Z.leb_le in E. eapply IH; [|exact H]; lia.
Qed.

Lemma parse_usize_range :
  forall s n, parse_usize s = Some n -> (0 <= n <= usize_max)%Z.
Proof.
  assert (Hm : (0 <= 0 <= usize_max)%Z) by (rewrite usize_max_eq; lia).
  intros [|c r] n H; unfold parse_usize in H; [discriminate|].
  destruct (Ascii.eqb c "+"%char).
  - destruct r; [discriminate|]. exact (parse_digits_range _ _ _ Hm H).
  - exact (parse_digits_range _ _ _ Hm H).
Qed.

Lemma wrap_in_range :
  forall prof z, (z <= usize_max)%Z -> wrap prof z = Ok z.
Proof.
  intros prof z H. unfold wrap. apply Z.leb_le in H. now rewrite H.
Qed.

Lemma pair_tokens_range :
  forall ps ts, pair_tokens ps ts ->
  Forall (fun '(n, _) => (0 <= n <= usize_max)%Z) ps.
Proof.
  induction 1; constructor; auto. eapply parse_usize_range; eassumption.
Qed.

(** [solve]'s loop over well-formed pairs computes [pairs_valid]. *)
Lemma check_pairs_spec :
  forall ps ts, pair_tokens ps ts -> check_pairs ts = Ok (pairs_valid ps).
Proof.
  induction 1 as [|v n col ps ts Hv _ IH]; [reflexivity|].
  simpl. rewrite Hv. simpl.
  destruct col; simpl;
    [destruct (n >? 12)%Z eqn:E | destruct (n >? 13)%Z eqn:E
    | destruct (n >? 14)%Z eqn:E];
    rewrite ?Z.gtb_ltb in E;
    [apply Z.ltb_lt in E | apply Z.ltb_ge in E | apply Z.ltb_lt in E
    | apply Z.ltb_ge in E | apply Z.ltb_lt in E | apply Z.ltb_ge in E];
    try (replace (n <=? _)%Z with false by (symmetry; apply Z.leb_gt; lia);
         reflexivity);
    replace (n <=? _)%Z with true by (symmetry; apply Z.leb_le; lia);
    exact IH.
Qed.

Lemma solve_line_spec :
  forall line g, line_record line g ->
  solve_line (tokenize line) = Ok (game_id g, pairs_valid (game_pairs g)).
Proof.
  intros line g (idt & pts & Ht & Hid & Hp).
  rewrite Ht. unfold solve_line. simpl. rewrite Hid. simpl.
  rewrite (check_pairs_spec _ _ Hp). reflexivity.
Qed.

Lemma line_record_id_range :
  forall line g, line_record line g -> (0 <= game_id g <= usize_max)%Z.
Proof.
  intros line g (idt & pts & _ & Hid & _). eapply parse_usize_range; eassumption.
Qed.

Lemma validity_sum_nonneg :
  forall lines gs, Forall2 line_record lines gs -> (0 <= validity_sum gs)%Z.
Proof.
  induction 1 as [|l g ls gs Hr _ IH]; simpl; [lia|].
  apply line_record_id_range in Hr. destruct (pairs_valid _); lia.
Qed.

Lemma solve_lines_spec :
  forall prof lines gs rx, Forall2 line_record lines gs ->
  (0 <= rx)%Z -> (rx + validity_sum gs <= usize_max)%Z ->
  solve_lines prof lines rx = Ok (rx + validity_sum gs)%Z.
Proof.
  intros prof lines gs rx H; revert rx.
  induction H as [|l g ls gs Hr Hrs IH]; intros rx H0 Hb; simpl in *.
  - f_equal; lia.
  - rewrite (solve_line_spec _ _ Hr). simpl.
    pose proof (line_record_id_range _ _ Hr) as Hid.
    pose proof (validity_sum_nonneg _ _ Hrs) as Hs.
    destruct (pairs_valid (game_pairs g)).
    + unfold add_usize. rewrite wrap_in_range by lia. simpl.
      rewrite IH by lia. f_equal; lia.
    + rewrite IH by lia. f_equal; lia.
Qed.

(** ** C2 *)

Lemma reduce_max_assoc :
  forall a b c : option Z,
  reduce (reduce a b Z.max) c Z.max = reduce a (reduce b c Z.max) Z.max.
Proof.
  intros [a|] [b|] [c|]; simpl; f_equal; auto using Z.max_assoc.
Qed.

Lemma reduce_None_l :
  forall (T : Type) (o : option T) f, reduce None o f = o.
Proof. intros T [a|] f; reflexivity. Qed.

Lemma ext_pairs_spec :
  forall ps ts, pair_tokens ps ts ->
  forall a b c,
  ext_pairs ts [a; b; c] =
    Ok [reduce a (opt_max Red ps) Z.max;
        reduce b (opt_max Green ps) Z.max;
        reduce c (opt_max Blue ps) Z.max].
Proof.
  induction 1 as [|v n col ps ts Hv _ IH]; intros a b c.
  - simpl. destruct a, b, c; reflexivity.
  - simpl. rewrite Hv. simpl.
    destruct col; simpl; rewrite IH; rewrite reduce_max_assoc; reflexivity.
Qed.

Lemma max_count_range :
  forall col ps, Forall (fun '(n, _) => (0 <= n <= usize_max)%Z) ps ->
  (0 <= max_count col ps <= usize_max)%Z.
Proof.
  intros col ps H. induction H as [|[n c] ps Hn _ IH]; simpl.
  - rewrite usize_max_eq; lia.
  - destruct (colour_eqb c col); lia.
Qed.

Lemma opt_max_unwrap :
  forall col ps, Forall (fun '(n, _) => (0 <= n <= usize_max)%Z) ps ->
  match opt_max col ps with Some x => x | None => 0%Z end = max_count col ps.
Proof.
  intros col ps H. induction H as [|[n c] ps Hn _ IH]; simpl; [reflexivity|].
  destruct (colour_eqb c col); [|exact IH].
  destruct (opt_max col ps); simpl; subst; lia.
Qed.

Lemma ext_line_spec :
  forall prof line g, line_record line g ->
  (max_count Red (game_pairs g) * max_count Green (game_pairs g) <= usize_max)%Z ->
  (power g <= usize_max)%Z ->
  ext_line prof (tokenize line) = Ok (power g).
Proof.
  intros prof line g (idt & pts & Ht & _ & Hp) Hrg Hpow.
  rewrite Ht. unfold ext_line. simpl.
  rewrite (ext_pairs_spec _ _ Hp). rewrite !reduce_None_l. simpl.
  pose proof (pair_tokens_range _ _ Hp) as Hr.
  rewrite !opt_max_unwrap by exact Hr.
  pose proof (max_count_range Red _ Hr).
  unfold mul_usize, power in *.
  rewrite wrap_in_range by lia. cbn [bind].
  rewrite wrap_in_range by lia. cbn [bind].
  rewrite wrap_in_range by lia. cbn [bind].
  f_equal; lia.
Qed.

Lemma power_nonneg :
  forall line g, line_record line g -> (0 <= power g)%Z.
Proof.
  intros line g (idt & pts & _ & _ & Hp). apply pair_tokens_range in Hp.
  unfold power.
  pose proof (max_count_range Red _ Hp); pose proof (max_count_range Green _ Hp);
  pose proof (max_count_range Blue _ Hp).
  apply Z.mul_nonneg_nonneg; [apply Z.mul_nonneg_nonneg|]; lia.
Qed.

Lemma power_sum_nonneg :
  forall lines gs, Forall2 line_record lines gs -> (0 <= power_sum gs)%Z.
Proof.
  induction 1 as [|l g ls gs Hr _ IH]; simpl; [lia|].
  apply power_nonneg in Hr. lia.
Qed.

Lemma ext_lines_spec :
  forall prof lines gs rx, Forall2 line_record lines gs ->
  Forall (fun g => max_count Red (game_pairs g) * max_count Green (game_pairs g)
                   <= usize_max)%Z gs ->
  (0 <= rx)%Z -> (rx + power_sum gs <= usize_max)%Z ->
  ext_lines prof lines rx = Ok (rx + power_sum gs)%Z.
Proof.
  intros prof lines gs rx H; revert rx.
  induction H as [|l g ls gs Hr Hrs IH]; intros rx Hm H0 Hb; simpl in *.
  - f_equal; lia.
  - inversion Hm as [|? ? Hg Hms]; subst.
    pose proof (power_nonneg _ _ Hr) as Hp.
    pose proof (power_sum_nonneg _ _ Hrs) as Hs.
    rewrite (ext_line_spec prof _ _ Hr Hg) by lia. simpl.
    unfold add_usize. rewrite wrap_in_range by lia. simpl.
    rewrite IH by (auto; lia). f_equal; lia.
Qed.

(** ** C4 *)

Lemma bind_no_err :
  forall {A B} (m : outcome A) (f : A -> outcome B) e,
  (forall e', m <> Err e') -> (forall a e', f a <> Err e') -> bind m f <> Err e.
Proof.
  intros A B m f e Hm Hf. destruct m as [a|e'|k]; simpl.
  - apply Hf.
  - exfalso; exact (Hm e' eq_refl).
  - discriminate.
Qed.

Lemma expect_no_err :
  forall {A} (o : option A) k e, expect o k <> Err e.
Proof. intros A [a|] k e; discriminate. Qed.

Lemma wrap_no_err : forall prof z e, wrap prof z <> Err e.
Proof.
  intros prof z e; unfold wrap. destruct (z <=? usize_max)%Z, prof; discriminate.
Qed.

Lemma check_pairs_no_err :
  forall ts, (forall e, check_pairs ts <> Err e) /\
             (forall v e, check_pairs (v :: ts) <> Err e).
Proof.
  induction ts as [|c ts [IH1 IH2]]; split; intros.
  - discriminate.
  - simpl. apply bind_no_err; [apply expect_no_err|]. intros; discriminate.
  - apply IH2.
  - simpl. apply bind_no_err; [apply expect_no_err|]. intros a e'.
    repeat match goal with
           | |- context [if ?b then _ else _] => destruct b
           end; try discriminate; apply IH1.
Qed.

Lemma ext_pairs_no_err :
  forall ts, (forall mv e, ext_pairs ts mv <> Err e) /\
             (forall v mv e, ext_pairs (v :: ts) mv <> Err e).
Proof.
  induction ts as [|c ts [IH1 IH2]]; split; intros.
  - discriminate.
  - simpl. apply bind_no_err; [apply expect_no_err|]. intros; discriminate.
  - apply IH2.
  - simpl. apply bind_no_err; [apply expect_no_err|]. intros a e'.
    apply bind_no_err; [|intros; apply IH1].
    intros e''; unfold colour_index.
    repeat match goal with
           | |- context [if ?b then _ else _] => destruct b
           end; discriminate.
Qed.

Lemma power_loop_no_err :
  forall prof cs gp e, power_loop prof gp cs <> Err e.
Proof.
  induction cs as [|c cs IH]; intros gp e; simpl; [discriminate|].
  apply bind_no_err; [intros; apply wrap_no_err | intros; apply IH].
Qed.

Lemma solve_line_no_err : forall ts e, solve_line ts <> Err e.
Proof.
  intros ts e; unfold solve_line, index.
  apply bind_no_err; [apply expect_no_err|]. intros t0 e'.
  destruct (String.eqb "Game" t0); [|discriminate].
  apply bind_no_err; [apply expect_no_err|]. intros t1 e1.
  apply bind_no_err; [apply expect_no_err|]. intros id e2.
  apply bind_no_err; [apply check_pairs_no_err|]. intros; discriminate.
Qed.

Lemma ext_line_no_err : forall prof ts e, ext_line prof ts <> Err e.
Proof.
  intros prof ts e; unfold ext_line, index.
  apply bind_no_err; [apply expect_no_err|]. intros t0 e'.
  destruct (String.eqb "Game" t0); [|discriminate].
  apply bind_no_err; [apply ext_pairs_no_err|]. intros; apply power_loop_no_err.
Qed.

Lemma solve_lines_no_err :
  forall prof ls rx e, solve_lines prof ls rx <> Err e.
Proof.
  induction ls as [|cv ls IH]; intros rx e; simpl; [discriminate|].
  apply bind_no_err; [apply solve_line_no_err|]. intros [id valid] e'.
  destruct valid; [|apply IH].
  apply bind_no_err; [intros; apply wrap_no_err | intros; apply IH].
Qed.

Lemma ext_lines_no_err :
  forall prof ls rx e, ext_lines prof ls rx <> Err e.
Proof.
  induction ls as [|cv ls IH]; intros rx e; simpl; [discriminate|].
  apply bind_no_err; [apply ext_line_no_err|]. intros gp e'.
  apply bind_no_err; [intros; apply wrap_no_err | intros; apply IH].
Qed.

Lemma solve_lines_app :
  forall prof pre post rx,
  solve_lines prof (pre ++ post)%list rx =
    (r <- solve_lines prof pre rx ;; solve_lines prof post r).
Proof.
  induction pre as [|cv pre IH]; intros post rx; simpl; [reflexivity|].
  destruct (solve_line (tokenize cv)) as [[id valid]|e|k]; simpl; auto.
  destruct valid; [|apply IH].
  destruct (add_usize prof rx id); simpl; auto.
Qed.

Lemma ext_lines_app :
  forall prof pre post rx,
  ext_lines prof (pre ++ post)%list rx =
    (r <- ext_lines prof pre rx ;; ext_lines prof post r).
Proof.
  induction pre as [|cv pre IH]; intros post rx; simpl; [reflexivity|].
  destruct (ext_line prof (tokenize cv)); simpl; auto.
  destruct (add_usize prof rx a); simpl; auto.
Qed.

Lemma colour_literals_false :
  forall c, (forall col, c <> colour_name col) ->
  String.eqb c "red" = false /\ String.eqb c "green" = false /\
  String.eqb c "blue" = false.
Proof.
  intros c H. repeat split; apply String.eqb_neq;
    [exact (H Red) | exact (H Green) | exact (H Blue)].
Qed.

Lemma check_pairs_bad :
  forall bad, bad_pairs bad -> exists k, check_pairs bad = Panic k.
Proof.
  intros bad Hb. destruct Hb as [v rest Hv | v n Hv | v n c rest Hv Hc].
  - exists ParseFailed. simpl. rewrite Hv. reflexivity.
  - exists IndexOutOfBounds. simpl. rewrite Hv. reflexivity.
  - exists NoMatch. simpl. rewrite Hv. simpl.
    destruct (colour_literals_false c Hc) as (-> & -> & ->). reflexivity.
Qed.

Lemma check_pairs_prefix_bad :
  forall ps pts bad, pair_tokens ps pts -> pairs_valid ps = true ->
  bad_pairs bad -> exists k, check_pairs (pts ++ bad)%list = Panic k.
Proof.
  intros ps pts bad Hp. induction Hp as [|v n col ps ts Hv _ IH];
    intros Hvalid Hb; simpl.
  - apply check_pairs_bad; exact Hb.
  - rewrite Hv. simpl in *. apply andb_prop in Hvalid as [Hn Hvalid].
    apply Z.leb_le in Hn.
    destruct col; simpl in *;
      [replace (n >? 12)%Z with false by (symmetry; rewrite Z.gtb_ltb; apply Z.ltb_ge; lia)
      |replace (n >? 13)%Z with false by (symmetry; rewrite Z.gtb_ltb; apply Z.ltb_ge; lia)
      |replace (n >? 14)%Z with false by (symmetry; rewrite Z.gtb_ltb; apply Z.ltb_ge; lia)];
      apply IH; assumption.
Qed.
Lemma check_pairs_over :
  forall v n col rest, parse_usize v = Some n -> (ceiling col < n)%Z ->
  check_pairs (v :: colour_name col :: rest) = Ok false.
Proof.
  intros v n col rest Hv Hn. simpl. rewrite Hv. simpl.
  destruct col; simpl in *;
    [replace (n >? 12)%Z with true | replace (n >? 13)%Z with true
    | replace (n >? 14)%Z with true]; try reflexivity;
    symmetry; rewrite Z.gtb_ltb; apply Z.ltb_lt; exact Hn.
Qed.

(** After pairs within limits, a pair over its ceiling ends [solve]'s
    check of the line: the tokens after it are never looked at. *)
Lemma check_pairs_prefix_over :
  forall ps pts v n col rest, pair_tokens ps pts -> pairs_valid ps = true ->
  parse_usize v = Some n -> (ceiling col < n)%Z ->
  check_pairs (pts ++ v :: colour_name col :: rest)%list = Ok false.
Proof.
  intros ps pts v0 n0 col0 rest Hp. induction Hp as [|v n col ps ts Hv _ IH];
    intros Hvalid Hv0 Hn0; simpl.
  - apply check_pairs_over with n0; assumption.
  - rewrite Hv. simpl in *. apply andb_prop in Hvalid as [Hn Hvalid].
    apply Z.leb_le in Hn.
    destruct col; simpl in *;
      [replace (n >? 12)%Z with false by (symmetry; rewrite Z.gtb_ltb; apply Z.ltb_ge; lia)
      |replace (n >? 13)%Z with false by (symmetry; rewrite Z.gtb_ltb; apply Z.ltb_ge; lia)
      |replace (n >? 14)%Z with false by (symmetry; rewrite Z.gtb_ltb; apply Z.ltb_ge; lia)];
      apply IH; assumption.
Qed.


Lemma ext_pairs_bad :
  forall bad mv, bad_pairs bad -> exists k, ext_pairs bad mv = Panic k.
Proof.
  intros bad mv Hb. destruct Hb as [v rest Hv | v n Hv | v n c rest Hv Hc].
  - exists ParseFailed. simpl. rewrite Hv. reflexivity.
  - exists IndexOutOfBounds. simpl. rewrite Hv. reflexivity.
  - exists NoMatch. simpl. rewrite Hv. simpl. unfold colour_index.
    destruct (colour_literals_false c Hc) as (-> & -> & ->). reflexivity.
Qed.

Lemma ext_pairs_prefix_bad :
  forall ps pts bad, pair_tokens ps pts -> bad_pairs bad ->
  forall mv, exists k, ext_pairs (pts ++ bad)%list mv = Panic k.
Proof.
  intros ps pts bad Hp Hb. induction Hp as [|v n col ps ts Hv _ IH]; intros mv.
  - apply ext_pairs_bad; exact Hb.
  - simpl. rewrite Hv. simpl. destruct col; simpl; apply IH.
Qed.

(** C4 (as amended): [solve] and [ext_solve] return [Err] exactly when
    loading the file fails, and then only that error; once the file is
    loaded they return [Ok] or abort. A line whose processing aborts aborts
    the whole call. Both abort on a first token other than ["Game"], and on
    a non-numeric count, an unknown colour or an unpaired trailing token in
    the pair tokens; [solve] does so only when every earlier pair of the
    line is within its ceiling: after a pair over its ceiling it judges the
    line invalid whatever follows. [solve] also aborts on a missing or
    non-numeric id. *)
Theorem io_errors_and_aborts :
  (forall prof f e, init f = Err e ->
     solve prof f = Err e /\ ext_solve prof f = Err e) /\
  (forall prof f lines, init f = Ok lines ->
     (forall e, solve prof f <> Err e) /\ (forall e, ext_solve prof f <> Err e)) /\
  (forall prof f pre cv post rx k,
     init f = Ok (pre ++ cv :: post)%list -> solve_lines prof pre 0%Z = Ok rx ->
     solve_line (tokenize cv) = Panic k -> solve prof f = Panic k) /\
  (forall prof f pre cv post rx k,
     init f = Ok (pre ++ cv :: post)%list -> ext_lines prof pre 0%Z = Ok rx ->
     ext_line prof (tokenize cv) = Panic k -> ext_solve prof f = Panic k) /\
  (forall prof t0 ts, t0 <> "Game" ->
     solve_line (t0 :: ts) = Panic AssertFailed /\
     ext_line prof (t0 :: ts) = Panic AssertFailed) /\
  (forall ts, ts = ["Game"] \/
     (exists t1 rest, ts = "Game" :: t1 :: rest /\ parse_usize t1 = None) ->
     exists k, solve_line ts = Panic k) /\
  (forall t1 id ps pts bad,
     parse_usize t1 = Some id -> pair_tokens ps pts -> pairs_valid ps = true ->
     bad_pairs bad -> exists k, solve_line ("Game" :: t1 :: pts ++ bad)%list = Panic k) /\
  (forall prof t1 ps pts bad,
     pair_tokens ps pts -> bad_pairs bad ->
     exists k, ext_line prof ("Game" :: t1 :: pts ++ bad)%list = Panic k) /\
  (forall t1 id ps pts v n col rest,
     parse_usize t1 = Some id -> pair_tokens ps pts -> pairs_valid ps = true ->
     parse_usize v = Some n -> (ceiling col < n)%Z ->
     solve_line ("Game" :: t1 :: pts ++ v :: colour_name col :: rest)%list = Ok (id, false)).
Proof.
  split; [|split; [|split; [|split; [|split; [|split; [|split; [|split]]]]]]].
  - intros prof f e Hi. unfold solve, ext_solve. rewrite Hi. split; reflexivity.
  - intros prof f lines Hi. unfold solve, ext_solve. rewrite Hi. simpl.
    split; intros e; [apply solve_lines_no_err | apply ext_lines_no_err].
  - intros prof f pre cv post rx k Hi Hpre Hk. unfold solve. rewrite Hi. simpl.
    rewrite solve_lines_app, Hpre. simpl. rewrite Hk. reflexivity.
  - intros prof f pre cv post rx k Hi Hpre Hk. unfold ext_solve. rewrite Hi. simpl.
    rewrite ext_lines_app, Hpre. simpl. rewrite Hk. reflexivity.
  - intros prof t0 ts Hne. unfold solve_line, ext_line, index.
    cbn [nth_error expect bind].
    replace (String.eqb "Game" t0) with false
      by (symmetry; apply String.eqb_neq; intros Heq; apply Hne; symmetry; exact Heq).
    split; reflexivity.
  - intros ts [-> | (t1 & rest & -> & Ht1)].
    + exists IndexOutOfBounds. reflexivity.
    + exists ParseFailed. unfold solve_line. simpl. rewrite Ht1. reflexivity.
  - intros t1 id ps pts bad Ht1 Hp Hv Hb.
    destruct (check_pairs_prefix_bad ps pts bad Hp Hv Hb) as [k Hk].
    exists k. unfold solve_line. simpl. rewrite Ht1. simpl. rewrite Hk. reflexivity.
  - intros prof t1 ps pts bad Hp Hb.
    destruct (ext_pairs_prefix_bad ps pts bad Hp Hb [None; None; None]) as [k Hk].
    exists k. unfold ext_line. simpl. rewrite Hk. reflexivity.
  - intros t1 id ps pts v n col rest Ht1 Hp Hval Hv Hn.
    unfold solve_line. simpl. rewrite Ht1. simpl.
    rewrite (check_pairs_prefix_over ps pts v n col rest Hp Hval Hv Hn). reflexivity.
Qed.

Lemma io_errors_and_aborts_witness :
  (solve Debug Missing = Err OpenFailed /\ ext_solve Debug Missing = Err OpenFailed) /\
  solve Release (Present [nl "Game 1: 1 red"; nl "Game 2: 2 purple"; nl "Game 3: 1 red"]) =
    Panic NoMatch /\
  ext_solve Debug (Present [nl "Game 1: 1 red"; nl "Hello 2: 1 red"]) = Panic AssertFailed /\
  solve_line (tokenize "Game 4: 1 blue, 13 red, 2 purple") = Ok (4%Z, false).
Proof.
  split; [apply (proj1 io_errors_and_aborts Debug Missing OpenFailed); reflexivity|].
  split; [|split].
  - apply (proj1 (proj2 (proj2 io_errors_and_aborts)) Release _
             ["Game 1: 1 red"] "Game 2: 2 purple" ["Game 3: 1 red"] 1%Z NoMatch);
      vm_compute; reflexivity.
  - apply (proj1 (proj2 (proj2 (proj2 io_errors_and_aborts))) Debug _
             ["Game 1: 1 red"] "Hello 2: 1 red" [] 0%Z AssertFailed);
      vm_compute; reflexivity.
  - change (tokenize "Game 4: 1 blue, 13 red, 2 purple") with
      ("Game" :: "4" :: ["1"; "blue"] ++ "13" :: colour_name Red :: ["2"; "purple"])%list.
    apply (proj2 (proj2 (proj2 (proj2 (proj2 (proj2 (proj2 (proj2 io_errors_and_aborts)))))))
             "4" 4%Z [(1, Blue)]%Z ["1"; "blue"] "13" 13%Z Red ["2"; "purple"]);
      [reflexivity | repeat constructor | reflexivity | reflexivity | simpl; lia].
Defined.

(** ** C5 *)

Lemma paged_counters_step :
  forall N k, (1 <= N)%nat ->
  (let '(p, l) := paged_counters N k in
   if (N <? l + 1)%nat then (p + 1, 1) else (p, l + 1))%nat =
  paged_counters N (S k).
Proof.
  intros N k HN. unfold paged_counters, ceil_div.
  destruct k as [|j].
  - replace (N <? 0 + 1)%nat with false by (symmetry; apply Nat.ltb_ge; lia). f_equal.
    + replace (1 + N - 1)%nat with N by lia. symmetry; apply Nat.div_same; lia.
    + rewrite Nat.Div0.mod_0_l. reflexivity.
  - pose proof (Nat.div_mod j N ltac:(lia)) as Hj.
    pose proof (Nat.mod_upper_bound j N ltac:(lia)) as Hr.
    set (q := (j / N)%nat) in *. set (r := (j mod N)%nat) in *.
    assert (Hp : ((S j + N - 1) / N = q + 1)%nat)
      by (symmetry; apply (Nat.div_unique _ _ _ r); lia).
    rewrite Hp.
    destruct (N <? r + 1 + 1)%nat eqn:E.
    + apply Nat.ltb_lt in E. f_equal.
      * apply (Nat.div_unique _ _ _ 0); lia.
      * symmetry. replace 1%nat with (0 + 1)%nat by reflexivity. f_equal.
        symmetry; apply (Nat.mod_unique _ _ (q + 1) 0); lia.
    + apply Nat.ltb_ge in E. f_equal.
      * apply (Nat.div_unique _ _ _ (r + 1)); lia.
      * f_equal. apply (Nat.mod_unique _ _ q (r + 1)); lia.
Qed.

Section PagedProofs.
Context {S A : Type}.
Variable inner_next : S -> option A * S.

Lemma paged_run_counters :
  forall N, (1 <= N)%nat ->
  forall n k (p : PagedIterator (S := S)),
  page_length p = N ->
  (page_number p, line_number p) = paged_counters N k ->
  run (paged_next inner_next) n p = label N (Datatypes.S k) (run inner_next n (iter p)).
Proof.
  intros N HN n. induction n as [|n IH]; intros k p Hl Hc; [reflexivity|].
  simpl. unfold paged_next at 1.
  destruct (inner_next (iter p)) as [[y|] it'] eqn:E.
  - pose proof (paged_counters_step N k HN) as Hs.
    rewrite <- Hc in Hs. rewrite Hl.
    destruct (N <? line_number p + 1)%nat eqn:Eb;
      cbn [label]; replace (Datatypes.S k - 1)%nat with k by lia;
      pose proof Hs as Hs'; cbn [paged_counters] in Hs';
      injection Hs' as H1 H2; rewrite <- H1, <- H2; f_equal;
      (apply IH; [reflexivity | exact Hs]).
  - simpl label. f_equal. apply IH; [exact Hl | exact Hc].
Qed.
Lemma paged_run_zero :
  forall n k (p : PagedIterator (S := S)),
  page_length p = 0%nat -> page_number p = k ->
  run (paged_next inner_next) n p = label_zero k (run inner_next n (iter p)).
Proof.
  intros n. induction n as [|n IH]; intros k p Hl Hp; [reflexivity|].
  simpl. unfold paged_next at 1.
  destruct (inner_next (iter p)) as [[y|] it'] eqn:E.
  - rewrite Hl. replace (0 <? line_number p + 1)%nat with true
      by (symmetry; apply Nat.ltb_lt; lia).
    cbn [label_zero]. rewrite Hp, Nat.add_1_r. f_equal.
    apply IH; reflexivity.
  - cbn [label_zero]. f_equal. apply IH; assumption.
Qed.

Lemma incr_ok :
  forall prof x, (Z.of_nat x + 1 <= usize_max)%Z -> incr prof x = Ok (x + 1)%nat.
Proof.
  intros prof x H. unfold incr, add_usize.
  rewrite wrap_in_range by lia. cbn [bind]. f_equal. lia.
Qed.

(** As long as no counter can reach 2^64 within the [n] calls, the exact
    [next] returns what [paged_next] returns. *)
Lemma paged_checked_agrees :
  forall prof n (p : PagedIterator (S := S)),
  (Z.of_nat (line_number p) + Z.of_nat n <= usize_max)%Z ->
  (Z.of_nat (page_number p) + Z.of_nat n <= usize_max)%Z ->
  run_outcome (paged_next_checked inner_next prof) n p =
    Ok (run (paged_next inner_next) n p).
Proof.
  intros prof n. induction n as [|n IH]; intros p Hl Hp; [reflexivity|].
  cbn [run_outcome run]. unfold paged_next_checked, paged_next.
  destruct (inner_next (iter p)) as [[y|] it'].
  - rewrite incr_ok by lia. cbn [bind].
    destruct (page_length p <? line_number p + 1)%nat.
    + rewrite incr_ok by lia. cbn [bind].
      rewrite IH by (cbn [line_number page_number]; lia). reflexivity.
    + cbn [bind]. rewrite IH by (cbn [line_number page_number]; lia). reflexivity.
  - cbn [bind]. rewrite IH by (cbn [line_number page_number]; lia). reflexivity.
Qed.
End PagedProofs.

(** C5 (as amended): for every wrapped iterator, every build profile and
    every number [n <= 2^64 - 2] of calls of [PagedIterator::next] (the
    exact [next], with [usize] counters): with a page length [N >= 1] the
    calls return the wrapped iterator's [n] results, each [Some x] at
    1-indexed item position [i] decorated as
    [(ceil(i / N), ((i - 1) mod N) + 1, x)] and each [None] left as
    [None], so pages and lines start at 1 and the values and the end of the
    sequence are those of the wrapped iterator; with page length 0 the
    [i]-th item is decorated [(i + 1, 1, x)]: every item starts a new page
    and the first one is on page 2. *)
Theorem paged_labels :
  forall (S A : Type) (inner_next : S -> option A * S) (prof : profile) n it,
  (Z.of_nat n < usize_max)%Z ->
  (forall N, (1 <= N)%nat ->
     run_outcome (paged_next_checked inner_next prof) n (paged_init it N) =
       Ok (label N 1 (run inner_next n it))) /\
  run_outcome (paged_next_checked inner_next prof) n (paged_init it 0) =
    Ok (label_zero 1 (run inner_next n it)).
Proof.
  intros S A inner_next prof n it Hn. split.
  - intros N HN. rewrite paged_checked_agrees by (cbn [paged_init line_number page_number]; lia).
    f_equal. apply (paged_run_counters inner_next N HN n 0); reflexivity.
  - rewrite paged_checked_agrees by (cbn [paged_init line_number page_number]; lia).
    f_equal. apply paged_run_zero; reflexivity.
Qed.

Lemma paged_labels_witness :
  run_outcome (paged_next_checked slice_next Debug) 4 (paged_init ["a"; "b"; "c"] 2) =
    Ok [Some (1, 1, "a"); Some (1, 2, "b"); Some (2, 1, "c"); None]%nat /\
  run_outcome (paged_next_checked slice_next Release) 3 (paged_init ["a"; "b"] 0) =
    Ok [Some (2, 1, "a"); Some (3, 1, "b"); None]%nat.
Proof.
  split.
  - destruct (paged_labels (list string) string slice_next Debug 4 ["a"; "b"; "c"])
      as [H _]; [vm_compute; reflexivity|].
    rewrite (H 2%nat ltac:(lia)). reflexivity.
  - destruct (paged_labels (list string) string slice_next Release 3 ["a"; "b"])
      as [_ H]; [vm_compute; reflexivity|].
    rewrite H. reflexivity.
Defined.

(** ** C6 *)

Section CycleProofs.
Context {A : Type}.

Lemma skipn_cons_nth :
  forall (l : list A) j x r, skipn j l = x :: r ->
  nth_error l j = Some x /\ skipn (S j) l = r.
Proof.
  induction l as [|y l IH]; intros [|j] x r H; simpl in *;
    try discriminate.
  - injection H as -> ->. split; reflexivity.
  - apply IH; exact H.
Qed.

Lemma cycle_run_from :
  forall (lines : list A), lines <> [] ->
  forall n j, (j <= length lines)%nat ->
  run cycle_next n (mkCycle lines (skipn j lines)) =
    map (fun i => nth_error lines ((j + i) mod length lines)) (seq 0 n).
Proof.
  intros lines Hne n. induction n as [|n IH]; intros j Hj; [reflexivity|].
  assert (Hlen : length lines <> 0%nat)
    by (destruct lines; [contradiction | discriminate]).
  simpl run. unfold cycle_next; cbn [cur orig].
  destruct (skipn j lines) as [|x r] eqn:E.
  - (* the current iterator is exhausted: [j = length lines] *)
    assert (j = length lines)
      by (pose proof (length_skipn j lines) as Hl; rewrite E in Hl; simpl in Hl; lia).
    subst j. destruct lines as [|y l]; [contradiction|].
    cbn [slice_next]. simpl seq; cbn [map]. f_equal.
    + rewrite Nat.add_0_r, Nat.Div0.mod_same. reflexivity.
    + change (mkCycle (y :: l) l) with (mkCycle (y :: l) (skipn 1 (y :: l))).
      rewrite IH by (simpl; lia).
      rewrite <- seq_shift, map_map. apply map_ext. intros i.
      f_equal.
      replace (length (y :: l) + S i)%nat with (1 + i + 1 * length (y :: l))%nat
        by lia.
      rewrite Nat.Div0.mod_add. reflexivity.
  - apply skipn_cons_nth in E as [Hx Hr].
    assert (Hjl : (j < length lines)%nat)
      by (apply nth_error_Some; rewrite Hx; discriminate).
    cbn [slice_next]. simpl seq; cbn [map]. f_equal.
    + rewrite Nat.add_0_r, Nat.mod_small by lia. symmetry; exact Hx.
    + rewrite <- Hr, IH by lia.
      rewrite <- seq_shift, map_map. apply map_ext. intros i.
      f_equal. f_equal. lia.
Qed.
End CycleProofs.

(** C6 (as amended): for every non-empty line source, [cycle()] never ends:
    its [i]-th result (0-indexed) is the stored line at index
    [i mod length], which exists; over [["a"; "b"]] it yields
    [a, b, a, b, ...]. *)
Theorem cycle_nth :
  forall (A : Type) (lines : list A), lines <> [] ->
  forall n,
  run cycle_next n (cycle lines) =
    map (fun i => nth_error lines (i mod length lines)) (seq 0 n) /\
  (forall i, nth_error lines (i mod length lines) <> None).
Proof.
  intros A lines Hne n. split.
  - apply (cycle_run_from lines Hne n 0); lia.
  - intros i. apply nth_error_Some. apply Nat.mod_upper_bound.
    destruct lines; [contradiction | discriminate].
Qed.

Lemma cycle_nth_witness :
  run cycle_next 6 (cycle ["a"; "b"]) =
    [Some "a"; Some "b"; Some "a"; Some "b"; Some "a"; Some "b"].
Proof.
  rewrite (proj1 (cycle_nth string ["a"; "b"] ltac:(discriminate) 6)).
  reflexivity.
Defined.

(** ** C7 *)

Definition short_circuit_agrees (rest : list string) : Prop :=
  (forall b, check_all rest = Ok b -> check_pairs rest = Ok b) /\
  (check_pairs rest = Ok true <-> check_all rest = Ok true) /\
  (forall k, check_all rest = Panic k ->
     check_pairs rest = Ok false \/ check_pairs rest = Panic k).

Lemma short_circuit_agrees_all :
  forall rest, short_circuit_agrees rest /\
               (forall v, short_circuit_agrees (v :: rest)).
Proof.
  unfold short_circuit_agrees.
  induction rest as [|c r [IH1 IH2]]; split.
  - cbn. repeat split; intros; try discriminate; assumption.
  - intros v. cbn. destruct (parse_usize v); cbn;
      repeat split; intros; try discriminate; right; assumption.
  - apply IH2.
  - intros v. destruct IH1 as (H1 & H2 & H3). cbn.
    destruct (parse_usize v) as [n|]; cbn;
      [|repeat split; intros; try discriminate; right; assumption].
    rewrite !Z.gtb_ltb, !Z.leb_antisym.
    destruct (String.eqb c "red");
      [|destruct (String.eqb c "green");
        [|destruct (String.eqb c "blue");
          [|cbn; repeat split; intros; try discriminate; right; assumption]]];
      cbn;
      match goal with |- context [(?lim <? n)%Z] => destruct (lim <? n)%Z end;
      cbn; destruct (check_all r) as [b|e|k]; cbn in *;
      repeat split; intros Hx; try discriminate; auto.
    all: try (injection Hx as <-; auto).
    all: try (apply H2; reflexivity).
    all: try (apply H2; exact Hx).
    all: try (left; reflexivity).
    all: try (apply H3; exact Hx).
    all: try (apply H1; exact Hx).
Qed.

Lemma check_all_spec :
  forall ps ts, pair_tokens ps ts -> check_all ts = Ok (pairs_valid ps).
Proof.
  induction 1 as [|v n col ps ts Hv _ IH]; [reflexivity|].
  simpl. rewrite Hv. simpl. destruct col; simpl; rewrite IH; reflexivity.
Qed.

Lemma check_all_prefix :
  forall ps pts, pair_tokens ps pts ->
  forall rest, check_all (pts ++ rest)%list =
    (r <- check_all rest ;; Ok (pairs_valid ps && r)).
Proof.
  induction 1 as [|v n col ps ts Hv _ IH]; intros rest.
  - simpl. destruct (check_all rest); reflexivity.
  - simpl. rewrite Hv. simpl. unfold pairs_valid in *.
    destruct col; simpl; rewrite IH; destruct (check_all rest); simpl;
      rewrite ?andb_assoc; reflexivity.
Qed.

Lemma check_all_bad :
  forall bad, bad_pairs bad -> exists k, check_all bad = Panic k.
Proof.
  intros bad Hb. destruct Hb as [v rest Hv | v n Hv | v n c rest Hv Hc].
  - exists ParseFailed. simpl. rewrite Hv. reflexivity.
  - exists IndexOutOfBounds. simpl. rewrite Hv. reflexivity.
  - exists NoMatch. simpl. rewrite Hv. simpl.
    destruct (colour_literals_false c Hc) as (-> & -> & ->). reflexivity.
Qed.

(** Where the check of all pairs aborts, [solve]'s check either aborts the
    same way or judges the record invalid, and the latter only because a
    pair over its ceiling comes after pairs within limits. *)
Lemma check_all_panic_cases :
  forall rest k, check_all rest = Panic k ->
  check_pairs rest = Panic k \/
  (check_pairs rest = Ok false /\
   exists ps pts v n col rest',
     rest = (pts ++ v :: colour_name col :: rest')%list /\
     pair_tokens ps pts /\ pairs_valid ps = true /\
     parse_usize v = Some n /\ (ceiling col < n)%Z).
Proof.
  intros rest. remember (length rest) as m eqn:Hm. revert rest Hm.
  induction m as [m IH] using (well_founded_induction lt_wf).
  intros [|v [|c r]] Hm k H.
  - discriminate H.
  - left. simpl in *. destruct (parse_usize v); exact H.
  - simpl in H |- *. destruct (parse_usize v) as [n|] eqn:Hv; simpl in H |- *;
      [|left; exact H].
    assert (Hr : forall col, c = colour_name col ->
              (ceiling col < n)%Z \/ (n <=? ceiling col)%Z = true).
    { intros col _. destruct (Z.lt_ge_cases (ceiling col) n); [left; assumption|].
      right. apply Z.leb_le. assumption. }
    assert (Hstep : forall col, c = colour_name col ->
              check_all r = Panic k ->
              (n <=? ceiling col)%Z = true ->
              check_pairs r = Panic k \/
              (check_pairs r = Ok false /\
               exists ps pts v' n' col' rest',
                 r = (pts ++ v' :: colour_name col' :: rest')%list /\
                 pair_tokens ps pts /\ pairs_valid ps = true /\
                 parse_usize v' = Some n' /\ (ceiling col' < n')%Z) ->
              check_pairs r = Panic k \/
              (check_pairs r = Ok false /\
               exists ps pts v' n' col' rest',
                 (v :: c :: r = pts ++ v' :: colour_name col' :: rest')%list /\
                 pair_tokens ps pts /\ pairs_valid ps = true /\
                 parse_usize v' = Some n' /\ (ceiling col' < n')%Z)).
    { intros col Hc _ Hle [Hk | [Hf (ps & pts & v' & n' & col' & rest' & Heq & Hp & Hval & Hv' & Hn')]].
      - left; exact Hk.
      - right. split; [exact Hf|]. subst c.
        exists ((n, col) :: ps), (v :: colour_name col :: pts), v', n', col', rest'.
        split; [simpl; rewrite Heq; reflexivity|].
        split; [constructor; assumption|].
        split; [unfold pairs_valid in *; simpl; rewrite Hle; exact Hval|].
        split; assumption. }
    assert (Hover : forall col, c = colour_name col -> (ceiling col < n)%Z ->
              exists ps pts v' n' col' rest',
                (v :: c :: r = pts ++ v' :: colour_name col' :: rest')%list /\
                pair_tokens ps pts /\ pairs_valid ps = true /\
                parse_usize v' = Some n' /\ (ceiling col' < n')%Z).
    { intros col Hc Hn. subst c. exists [], [], v, n, col, r.
      repeat split; try assumption; constructor. }
    assert (Hlen : (length r < m)%nat) by (subst m; simpl; lia).
    destruct (String.eqb c "red") eqn:Er;
      [apply String.eqb_eq in Er; subst c|
       destruct (String.eqb c "green") eqn:Eg;
       [apply String.eqb_eq in Eg; subst c|
        destruct (String.eqb c "blue") eqn:Eb;
        [apply String.eqb_eq in Eb; subst c | left; exact H]]];
      simpl in H; destruct (check_all r) as [b|e|k'] eqn:Ea; try discriminate H;
      injection H as <-.
    + destruct (Hr Red eq_refl) as [Hn | Hle]; cbn [ceiling] in *.
      * replace (n >? 12)%Z with true by (symmetry; rewrite Z.gtb_ltb; apply Z.ltb_lt; lia).
        right. split; [reflexivity | exact (Hover Red eq_refl Hn)].
      * replace (n >? 12)%Z with false by (symmetry; rewrite Z.gtb_ltb; apply Z.ltb_ge; apply Z.leb_le; exact Hle).
        apply (Hstep Red eq_refl eq_refl Hle). exact (IH _ Hlen r eq_refl k' Ea).
    + destruct (Hr Green eq_refl) as [Hn | Hle]; cbn [ceiling] in *.
      * replace (n >? 13)%Z with true by (symmetry; rewrite Z.gtb_ltb; apply Z.ltb_lt; lia).
        right. split; [reflexivity | exact (Hover Green eq_refl Hn)].
      * replace (n >? 13)%Z with false by (symmetry; rewrite Z.gtb_ltb; apply Z.ltb_ge; apply Z.leb_le; exact Hle).
        apply (Hstep Green eq_refl eq_refl Hle). exact (IH _ Hlen r eq_refl k' Ea).
    + destruct (Hr Blue eq_refl) as [Hn | Hle]; cbn [ceiling] in *.
      * replace (n >? 14)%Z with true by (symmetry; rewrite Z.gtb_ltb; apply Z.ltb_lt; lia).
        right. split; [reflexivity | exact (Hover Blue eq_refl Hn)].
      * replace (n >? 14)%Z with false by (symmetry; rewrite Z.gtb_ltb; apply Z.ltb_ge; apply Z.leb_le; exact Hle).
        apply (Hstep Blue eq_refl eq_refl Hle). exact (IH _ Hlen r eq_refl k' Ea).
Qed.

(** C7 (as amended): [solve]'s check of a record's pairs stops at the first
    pair over its ceiling and judges the record invalid without inspecting
    the tokens after it, whatever they are. Whenever the check of all pairs
    completes (in particular on every well-formed record) both judge the
    same; the short-circuit judges valid exactly when the full check does.
    Where the full check aborts, the short-circuit aborts the same way
    unless a pair over its ceiling precedes the malformed pair, and then it
    judges the record invalid: a record made of pairs within limits, a pair
    over its ceiling, well-formed pairs and then a malformed pair is judged
    invalid by the short-circuit while the full check aborts. *)
Theorem short_circuit_refines :
  (forall ps pts v n col rest,
     pair_tokens ps pts -> pairs_valid ps = true ->
     parse_usize v = Some n -> (ceiling col < n)%Z ->
     check_pairs (pts ++ v :: colour_name col :: rest)%list = Ok false) /\
  (forall ps ts, pair_tokens ps ts ->
     check_pairs ts = Ok (pairs_valid ps) /\ check_all ts = Ok (pairs_valid ps)) /\
  (forall rest b, check_all rest = Ok b -> check_pairs rest = Ok b) /\
  (forall rest, check_pairs rest = Ok true <-> check_all rest = Ok true) /\
  (forall rest k, check_all rest = Panic k ->
     check_pairs rest = Panic k \/
     (check_pairs rest = Ok false /\
      exists ps pts v n col rest',
        rest = (pts ++ v :: colour_name col :: rest')%list /\
        pair_tokens ps pts /\ pairs_valid ps = true /\
        parse_usize v = Some n /\ (ceiling col < n)%Z)) /\
  (forall ps pts v n col ms mid bad,
     pair_tokens ps pts -> pairs_valid ps = true ->
     parse_usize v = Some n -> (ceiling col < n)%Z ->
     pair_tokens ms mid -> bad_pairs bad ->
     check_pairs (pts ++ v :: colour_name col :: mid ++ bad)%list = Ok false /\
     exists k, check_all (pts ++ v :: colour_name col :: mid ++ bad)%list = Panic k).
Proof.
  split; [|split; [|split; [|split; [|split]]]].
  - exact check_pairs_prefix_over.
  - intros ps ts Hp. split; [apply check_pairs_spec | apply check_all_spec]; exact Hp.
  - intros rest. apply (proj1 (short_circuit_agrees_all rest)).
  - intros rest. apply (proj1 (short_circuit_agrees_all rest)).
  - exact check_all_panic_cases.
  - intros ps pts v n col ms mid bad Hp Hval Hv Hn Hm Hb.
    split; [apply (check_pairs_prefix_over ps pts v n col); assumption|].
    destruct (check_all_bad bad Hb) as [k Hk]. exists k.
    rewrite (check_all_prefix ps pts Hp). simpl. rewrite Hv. simpl.
    rewrite (check_all_prefix ms mid Hm), Hk.
    destruct col; reflexivity.
Qed.

Lemma short_circuit_refines_witness :
  check_pairs ["1"; "blue"; "13"; "red"; "2"; "green"; "2"; "purple"] = Ok false /\
  check_all ["1"; "blue"; "13"; "red"; "2"; "green"; "2"; "purple"] = Panic NoMatch /\
  check_pairs ["1"; "red"; "2"; "blue"] = check_all ["1"; "red"; "2"; "blue"].
Proof.
  assert (Hp : pair_tokens [(1, Blue)]%Z ["1"; "blue"]) by (repeat constructor).
  assert (Hm : pair_tokens [(2, Green)]%Z ["2"; "green"]) by (repeat constructor).
  assert (Hb : bad_pairs ["2"; "purple"])
    by (apply (bad_colour "2" 2%Z "purple" []); [reflexivity | intros [] H; discriminate H]).
  destruct (proj2 (proj2 (proj2 (proj2 (proj2 short_circuit_refines))))
              [(1, Blue)]%Z ["1"; "blue"] "13" 13%Z Red [(2, Green)]%Z ["2"; "green"]
              ["2"; "purple"] Hp eq_refl eq_refl ltac:(simpl; lia) Hm Hb)
    as [H1 [k Hk]].
  split; [exact H1|]. split; [vm_compute in Hk |- *; reflexivity|].
  rewrite (proj1 (proj2 (proj2 short_circuit_refines)) ["1"; "red"; "2"; "blue"] true)
    by (vm_compute; reflexivity).
  vm_compute; reflexivity.
Defined.

(** ** C8 *)

Lemma str_append_nil_r : forall s, (s ++ EmptyString) = s.
Proof. induction s as [|c s IH]; simpl; [reflexivity | now rewrite IH]. Qed.

Lemma str_append_assoc :
  forall a b c, (a ++ (b ++ c)) = ((a ++ b) ++ c).
Proof. induction a as [|x a IH]; intros; simpl; [reflexivity | now rewrite IH]. Qed.

Lemma str_forallb_app :
  forall f a b, str_forallb f (a ++ b) = str_forallb f a && str_forallb f b.
Proof.
  induction a as [|x a IH]; intros b; simpl; [reflexivity|].
  rewrite IH. apply andb_assoc.
Qed.

Lemma split_delims_cons :
  forall s, exists q qs, split_delims s = q :: qs.
Proof.
  induction s as [|c s (q & qs & IH)]; simpl; [eexists _, _; reflexivity|].
  rewrite IH. destruct (is_delim c); eexists _, _; reflexivity.
Qed.

Lemma split_delims_app_free :
  forall p s q qs, delim_free p = true -> split_delims s = q :: qs ->
  split_delims (p ++ s) = (p ++ q) :: qs.
Proof.
  induction p as [|c p IH]; intros s q qs Hp Hs; simpl; [exact Hs|].
  unfold delim_free in Hp; simpl in Hp. apply andb_prop in Hp as [Hc Hp].
  apply negb_true_iff in Hc. rewrite Hc, (IH s q qs Hp Hs). reflexivity.
Qed.

Lemma split_delims_join :
  forall rest p, delim_free p = true ->
  Forall (fun '(d, q) => is_delim d = true /\ delim_free q = true) rest ->
  split_delims (join p rest) = p :: map snd rest.
Proof.
  induction rest as [|[d q] rest IH]; intros p Hp Hr; simpl.
  - rewrite <- (str_append_nil_r p) at 1.
    rewrite (split_delims_app_free p EmptyString EmptyString [] Hp eq_refl).
    now rewrite str_append_nil_r.
  - inversion Hr as [|? ? Hdq Hr']; subst. destruct Hdq as [Hd Hq].
    rewrite (split_delims_app_free p (String d (join q rest)) EmptyString
               (q :: map snd rest) Hp).
    + now rewrite str_append_nil_r.
    + simpl. rewrite Hd, (IH q Hq Hr'). reflexivity.
Qed.

Lemma join_cons :
  forall c p rest, join (String c p) rest = String c (join p rest).
Proof. intros c p [|[d q] rest]; reflexivity. Qed.

Lemma join_exists :
  forall line, exists p rest,
    join p rest = line /\ delim_free p = true /\
    Forall (fun '(d, q) => is_delim d = true /\ delim_free q = true) rest.
Proof.
  induction line as [|c s (p & rest & Hj & Hp & Hr)].
  - exists EmptyString, []. repeat split; constructor.
  - destruct (is_delim c) eqn:Hc.
    + exists EmptyString, ((c, p) :: rest). simpl. rewrite Hj.
      repeat split; auto.
    + exists (String c p), rest. rewrite join_cons, Hj.
      repeat split; auto. unfold delim_free in *; simpl. now rewrite Hc, Hp.
Qed.

Lemma trim_start_spec :
  forall s, exists w1,
    s = (w1 ++ trim_start s) /\ str_forallb is_whitespace w1 = true /\
    (forall c u, trim_start s = String c u -> is_whitespace c = false).
Proof.
  induction s as [|c s (w1 & Hs & Hw & Hf)]; simpl.
  - exists EmptyString. repeat split; intros; discriminate.
  - destruct (is_whitespace c) eqn:Hc.
    + exists (String c w1). simpl. rewrite <- Hs, Hc, Hw. repeat split; auto.
    + exists EmptyString. repeat split; auto.
      intros c0 u H. injection H as <- _. exact Hc.
Qed.

Lemma str_snoc_not_empty :
  forall u c, (u ++ String c EmptyString) <> EmptyString.
Proof. intros [|x u] c; discriminate. Qed.

Lemma trim_end_spec :
  forall s, exists w2,
    s = (trim_end s ++ w2) /\ str_forallb is_whitespace w2 = true /\
    (forall u c, trim_end s = (u ++ String c EmptyString) -> is_whitespace c = false) /\
    (forall c u, trim_end s = String c u -> exists u', s = String c u').
Proof.
  induction s as [|c s (w2 & Hs & Hw & Hl & Hf)]; simpl.
  - exists EmptyString. repeat split.
    + intros u c H. exfalso. exact (str_snoc_not_empty u c (eq_sym H)).
    + intros c u H; discriminate.
  - destruct (is_whitespace c && String.eqb (trim_end s) EmptyString) eqn:E.
    + apply andb_prop in E as [Hc He]. apply String.eqb_eq in He.
      exists (String c s). simpl. rewrite Hc.
      rewrite He in Hs. simpl in Hs. rewrite Hs, Hw.
      repeat split.
      * intros u c0 H. exfalso. exact (str_snoc_not_empty u c0 (eq_sym H)).
      * intros c0 u H; discriminate.
    + exists w2. simpl. rewrite <- Hs. repeat split; auto.
      * intros [|x u] c0 H; simpl in H; injection H as <- H.
        -- destruct (trim_end s) eqn:Et; [|discriminate].
           rewrite String.eqb_refl, andb_true_r in E. exact E.
        -- exact (Hl u c0 H).
      * intros c0 u H. injection H as <- _. eexists; reflexivity.
Qed.

Lemma trim_trimmed : forall s, trimmed s (trim s).
Proof.
  intros s. unfold trimmed, trim.
  destruct (trim_start_spec s) as (w1 & Hs1 & Hw1 & Hf1).
  destruct (trim_end_spec (trim_start s)) as (w2 & Hs2 & Hw2 & Hl2 & Hf2).
  exists w1, w2. repeat split; auto.
  - rewrite Hs1 at 1. rewrite Hs2 at 1. reflexivity.
  - intros c u H. destruct (Hf2 c u H) as [u' Hu']. exact (Hf1 c u' Hu').
Qed.

Lemma nonempty_filter_ext :
  forall l : list string,
  filter (fun t => (0 <? String.length t)%nat) l =
  filter (fun t => negb (String.eqb t EmptyString)) l.
Proof. intros l. apply filter_ext. intros [|c t]; reflexivity. Qed.

(** C8: every line splits uniquely into delimiter-free pieces separated by
    single delimiters (space, comma, colon, semicolon); tokenization yields,
    in order, those pieces with surrounding whitespace trimmed and the empty
    ones discarded; every token is non-empty and is the trimmed form of a
    piece. *)
Theorem tokenize_spec :
  forall line,
  (exists p rest, join p rest = line /\ delim_free p = true /\
     Forall (fun '(d, q) => is_delim d = true /\ delim_free q = true) rest) /\
  (forall p rest, join p rest = line -> delim_free p = true ->
     Forall (fun '(d, q) => is_delim d = true /\ delim_free q = true) rest ->
     tokenize line =
       filter (fun t => negb (String.eqb t EmptyString))
              (map trim (p :: map snd rest))) /\
  (forall t, In t (tokenize line) ->
     t <> EmptyString /\ exists q, In q (split_delims line) /\ trimmed q t).
Proof.
  intros line. split; [apply join_exists|split].
  - intros p rest Hj Hp Hr. unfold tokenize.
    rewrite <- Hj, (split_delims_join rest p Hp Hr).
    apply nonempty_filter_ext.
  - intros t Ht. unfold tokenize in Ht. apply filter_In in Ht as [Hm Hlen].
    apply in_map_iff in Hm as (q & <- & Hq). split.
    + intros He. rewrite He in Hlen. discriminate.
    + exists q. split; [exact Hq | apply trim_trimmed].
Qed.

Lemma tokenize_spec_witness :
  tokenize "Game 1: 3 blue,  4 red" = ["Game"; "1"; "3"; "blue"; "4"; "red"].
Proof.
  rewrite (proj1 (proj2 (tokenize_spec "Game 1: 3 blue,  4 red")) "Game"
    [(" "%char, "1"); (":"%char, ""); (" "%char, "3"); (" "%char, "blue");
     (","%char, ""); (" "%char, ""); (" "%char, "4"); (" "%char, "red")]).
  - reflexivity.
  - reflexivity.
  - reflexivity.
  - repeat constructor.
Defined.

(** ** C9 *)

Lemma split_delims_blank :
  forall s, str_forallb (fun c => is_delim c || is_whitespace c) s = true ->
  Forall (fun q => str_forallb is_whitespace q = true) (split_delims s).
Proof.
  induction s as [|c s IH]; intros H; simpl in *.
  - repeat constructor.
  - apply andb_prop in H as [Hc H]. specialize (IH H).
    destruct (is_delim c) eqn:Hd.
    + constructor; [reflexivity | exact IH].
    + simpl in Hc. destruct (split_delims s) as [|p ps]; simpl.
      * repeat constructor. simpl. now rewrite Hc.
      * inversion IH as [|? ? Hp Hps]; subst.
        constructor; [simpl; now rewrite Hc, Hp | exact Hps].
Qed.

Lemma trim_blank :
  forall q, str_forallb is_whitespace q = true -> trim q = EmptyString.
Proof.
  intros q H. unfold trim.
  assert (trim_start q = EmptyString) as ->; [|reflexivity].
  induction q as [|c q IH]; simpl in *; [reflexivity|].
  apply andb_prop in H as [-> H]. exact (IH H).
Qed.

Lemma tokenize_blank :
  forall s, str_forallb (fun c => is_delim c || is_whitespace c) s = true ->
  tokenize s = [].
Proof.
  intros s H. unfold tokenize. apply split_delims_blank in H.
  induction H as [|q qs Hq _ IH]; [reflexivity|].
  simpl. rewrite trim_blank by exact Hq. exact IH.
Qed.

(** C9 (as amended): a line made only of delimiters and whitespace (the
    empty line included) yields no tokens; on such a line both [solve] and
    [ext_solve] abort with an out-of-range access to [tokens[0]], before the
    ["Game"] assertion, provided every earlier line was processed without
    aborting (and the file was read); otherwise the earlier lines' own
    abort is the result: an earlier malformed line aborts first with its
    own failure. *)
Theorem empty_token_line_aborts :
  (forall s, str_forallb (fun c => is_delim c || is_whitespace c) s = true ->
     tokenize s = []) /\
  solve_line [] = Panic IndexOutOfBounds /\
  (forall prof, ext_line prof [] = Panic IndexOutOfBounds) /\
  (forall prof f pre cv post rx,
     init f = Ok (pre ++ cv :: post)%list -> tokenize cv = [] ->
     solve_lines prof pre 0%Z = Ok rx -> solve prof f = Panic IndexOutOfBounds) /\
  (forall prof f pre cv post rx,
     init f = Ok (pre ++ cv :: post)%list -> tokenize cv = [] ->
     ext_lines prof pre 0%Z = Ok rx -> ext_solve prof f = Panic IndexOutOfBounds) /\
  (forall prof f pre cv post,
     init f = Ok (pre ++ cv :: post)%list -> tokenize cv = [] ->
     solve prof f = (r <- solve_lines prof pre 0%Z ;; Panic IndexOutOfBounds)) /\
  (forall prof f pre cv post,
     init f = Ok (pre ++ cv :: post)%list -> tokenize cv = [] ->
     ext_solve prof f = (r <- ext_lines prof pre 0%Z ;; Panic IndexOutOfBounds)) /\
  (forall prof f pre1 bad pre2 cv post rx k,
     init f = Ok (pre1 ++ bad :: pre2 ++ cv :: post)%list -> tokenize cv = [] ->
     solve_lines prof pre1 0%Z = Ok rx -> solve_line (tokenize bad) = Panic k ->
     solve prof f = Panic k) /\
  (forall prof f pre1 bad pre2 cv post rx k,
     init f = Ok (pre1 ++ bad :: pre2 ++ cv :: post)%list -> tokenize cv = [] ->
     ext_lines prof pre1 0%Z = Ok rx -> ext_line prof (tokenize bad) = Panic k ->
     ext_solve prof f = Panic k).
Proof.
  split; [exact tokenize_blank|]. split; [reflexivity|]. split; [reflexivity|].
  split; [|split; [|split; [|split; [|split]]]].
  - intros prof f pre cv post rx Hi Ht Hpre. unfold solve. rewrite Hi. simpl.
    rewrite solve_lines_app, Hpre. simpl. rewrite Ht. reflexivity.
  - intros prof f pre cv post rx Hi Ht Hpre. unfold ext_solve. rewrite Hi. simpl.
    rewrite ext_lines_app, Hpre. simpl. rewrite Ht. reflexivity.
  - intros prof f pre cv post Hi Ht. unfold solve. rewrite Hi. cbn [bind].
    rewrite solve_lines_app. destruct (solve_lines prof pre 0%Z); cbn [bind]; [|reflexivity..].
    simpl. rewrite Ht. reflexivity.
  - intros prof f pre cv post Hi Ht. unfold ext_solve. rewrite Hi. cbn [bind].
    rewrite ext_lines_app. destruct (ext_lines prof pre 0%Z); cbn [bind]; [|reflexivity..].
    simpl. rewrite Ht. reflexivity.
  - intros prof f pre1 bad pre2 cv post rx k Hi _ Hpre Hk. unfold solve. rewrite Hi.
    cbn [bind]. rewrite solve_lines_app, Hpre. simpl. rewrite Hk. reflexivity.
  - intros prof f pre1 bad pre2 cv post rx k Hi _ Hpre Hk. unfold ext_solve. rewrite Hi.
    cbn [bind]. rewrite ext_lines_app, Hpre. simpl. rewrite Hk. reflexivity.
Qed.

Lemma empty_token_line_aborts_witness :
  solve Debug (Present [nl "Game 1: 1 red"; nl " ;, "; nl "Game 2: 1 red"]) =
    Panic IndexOutOfBounds /\
  ext_solve Release (Present [nl "Game 1: 1 red"; nl "Game 2: 1 purple"; nl ""]) =
    Panic NoMatch.
Proof.
  split.
  - apply (proj1 (proj2 (proj2 (proj2 empty_token_line_aborts))) Debug _
             ["Game 1: 1 red"] " ;, " ["Game 2: 1 red"] 1%Z);
      vm_compute; reflexivity.
  - apply (proj2 (proj2 (proj2 (proj2 (proj2 (proj2 (proj2 (proj2 empty_token_line_aborts))))))) Release _
             ["Game 1: 1 red"] "Game 2: 1 purple" [] "" [] 0%Z NoMatch);
      vm_compute; reflexivity.
Defined.

(** * Further properties of the code *)

(** ** [InfiniteLinesReader::init] *)

Lemma trim_end_newlines_snoc :
  forall s, trim_end_newlines (s ++ String newline EmptyString) = trim_end_newlines s.
Proof.
  induction s as [|c s IH]; [reflexivity|]. simpl. rewrite IH. reflexivity.
Qed.

Lemma trim_end_newlines_id :
  forall s, (forall u, s <> (u ++ String newline EmptyString)) ->
  trim_end_newlines s = s.
Proof.
  induction s as [|c s IH]; intros H; [reflexivity|]. simpl.
  rewrite IH by (intros u Hu; apply (H (String c u)); simpl; now rewrite Hu).
  destruct (Ascii.eqb c newline) eqn:Ec; [|reflexivity].
  destruct s as [|c' s']; [|reflexivity].
  apply Ascii.eqb_eq in Ec. subst c. exfalso. exact (H EmptyString eq_refl).
Qed.

(** Reading back a file written line by line, each line followed by a
    newline, gives back the lines, provided none of them ends in a newline
    itself. *)
Theorem init_lines_roundtrip :
  forall lines,
  Forall (fun l => forall u, l <> (u ++ String newline EmptyString)) lines ->
  init (Present (map nl lines)) = Ok lines.
Proof.
  intros lines H. simpl. induction H as [|l ls Hl _ IH]; [reflexivity|].
  cbn [map read_lines nl].
  replace (String.length (l ++ String newline EmptyString) =? 0)%nat with false
    by (destruct l; reflexivity).
  rewrite IH. cbn [bind].
  rewrite trim_end_newlines_snoc, trim_end_newlines_id by exact Hl. reflexivity.
Qed.

Lemma init_lines_roundtrip_witness :
  init (Present (map nl ["Game 1: 1 red"; ""; "x"])) = Ok ["Game 1: 1 red"; ""; "x"].
Proof.
  apply init_lines_roundtrip.
  repeat apply Forall_cons; try apply Forall_nil;
    intros [|c u] H; try discriminate;
    injection H as _ H; repeat (destruct u as [|? u]; try discriminate;
                               injection H as _ H).
Defined.

(** A read failure before the end of the file makes [init] fail with the
    error alone: the lines read before it are discarded. *)
Theorem init_read_error :
  forall pre post,
  Forall (fun ev => exists s, ev = Chunk s /\ s <> EmptyString) pre ->
  init (Present (pre ++ ReadError :: post)%list) = Err ReadFailed.
Proof.
  intros pre post H. simpl. induction H as [|ev pre' (s & -> & Hs) _ IH];
    [reflexivity|].
  simpl. rewrite IH. destruct s; [contradiction | reflexivity].
Qed.

Lemma init_read_error_witness :
  init (Present [nl "Game 1: 1 red"; ReadError; nl "Game 2: 1 red"]) = Err ReadFailed.
Proof.
  apply (init_read_error [nl "Game 1: 1 red"] [nl "Game 2: 1 red"]).
  repeat constructor. eexists; split; [reflexivity | discriminate].
Defined.

(** [read_line] returning [Ok(0)] ends the reading: nothing after the first
    empty read is looked at. *)
Theorem init_stops_at_eof :
  forall pre post,
  ~ In (Chunk EmptyString) pre ->
  init (Present (pre ++ Chunk EmptyString :: post)%list) = init (Present pre).
Proof.
  intros pre post H. simpl. induction pre as [|[s|] pre IH]; [reflexivity| |reflexivity].
  simpl. destruct s as [|c s'].
  - exfalso. apply H. left. reflexivity.
  - simpl. rewrite IH; [reflexivity|]. intros Hin. apply H. right. exact Hin.
Qed.

Lemma init_stops_at_eof_witness :
  init (Present [nl "a"; Chunk EmptyString; ReadError]) = Ok ["a"].
Proof.
  refine (eq_trans (init_stops_at_eof [nl "a"] [ReadError] _) eq_refl).
  simpl. intros [H | []]. discriminate.
Defined.

(** ** [<usize as FromStr>::from_str] *)

Lemma decimal_value_mono :
  forall s acc v, (0 <= acc)%Z -> decimal_value acc s = Some v -> (acc <= v)%Z.
Proof.
  induction s as [|c s IH]; simpl; intros acc v Ha H.
  - injection H as <-. lia.
  - destruct (digit_value c) as [d|] eqn:Ed; [|discriminate].
    apply digit_value_range in Ed. apply IH in H; lia.
Qed.

Lemma parse_digits_decimal :
  forall s acc, (0 <= acc <= usize_max)%Z ->
  parse_digits acc s =
    match decimal_value acc s with
    | Some v => if (v <=? usize_max)%Z then Some v else None
    | None => None
    end.
Proof.
  induction s as [|c s IH]; simpl; intros acc Ha.
  - destruct Ha as [_ Ha]. apply Z.leb_le in Ha. now rewrite Ha.
  - destruct (digit_value c) as [d|] eqn:Ed; [|reflexivity].
    apply digit_value_range in Ed.
    destruct (acc * 10 + d <=? usize_max)%Z eqn:E.
    + apply Z.leb_le in E. apply IH. lia.
    + apply Z.leb_gt in E.
      destruct (decimal_value (acc * 10 + d) s) as [v|] eqn:Ev; [|reflexivity].
      apply decimal_value_mono in Ev; [|lia].
      replace (v <=? usize_max)%Z with false by (symmetry; apply Z.leb_gt; lia).
      reflexivity.
Qed.

(** [parse::<usize>] accepts exactly an optional ['+'] followed by one or
    more decimal digits whose value is at most [usize::MAX] (leading zeros
    allowed), and returns that value. *)
Theorem parse_usize_spec :
  forall s n,
  parse_usize s = Some n <->
  exists r, (s = r \/ s = String "+" r) /\ r <> EmptyString /\
            decimal_value 0 r = Some n /\ (n <= usize_max)%Z.
Proof.
  assert (Hm : (0 <= 0 <= usize_max)%Z) by (rewrite usize_max_eq; lia).
  assert (Hd : forall r n, parse_digits 0 r = Some n <->
                 decimal_value 0 r = Some n /\ (n <= usize_max)%Z).
  { intros r n. rewrite (parse_digits_decimal r 0 Hm).
    destruct (decimal_value 0 r) as [v|]; [|split; [discriminate | intros [H _]; discriminate]].
    destruct (v <=? usize_max)%Z eqn:E.
    - apply Z.leb_le in E. split; [intros H; injection H as <-; auto|].
      intros [H _]; injection H as <-; reflexivity.
    - apply Z.leb_gt in E. split; [discriminate|].
      intros [H Hn]; injection H as <-; lia. }
  intros s n. split.
  - intros H. destruct s as [|c r]; [discriminate|]. unfold parse_usize in H.
    destruct (Ascii.eqb c "+"%char) eqn:Ec.
    + apply Ascii.eqb_eq in Ec; subst c.
      destruct r as [|c' r']; [discriminate|].
      apply Hd in H as [H1 H2]. exists (String c' r'). repeat split; auto.
      discriminate.
    + apply Hd in H as [H1 H2]. exists (String c r). repeat split; auto.
      discriminate.
  - intros (r & [-> | ->] & Hne & Hv & Hn).
    + destruct r as [|c r']; [contradiction|]. unfold parse_usize.
      destruct (Ascii.eqb c "+"%char) eqn:Ec.
      * apply Ascii.eqb_eq in Ec; subst c. discriminate Hv.
      * apply Hd; auto.
    + unfold parse_usize. simpl.
      destruct r as [|c r']; [contradiction|]. apply Hd; auto.
Qed.

Lemma parse_usize_spec_witness :
  parse_usize "+007" = Some 7%Z.
Proof.
  apply (proj2 (parse_usize_spec "+007" 7)).
  exists "007". split; [right; reflexivity|].
  split; [discriminate|]. split; [reflexivity | vm_compute; discriminate].
Defined.

(** ** [reduce] *)



(** ** Tokenizer *)

Lemma split_delims_app_delim :
  forall a d b, is_delim d = true ->
  split_delims (a ++ String d b) = (split_delims a ++ split_delims b)%list.
Proof.
  induction a as [|c a IH]; intros d b Hd; simpl.
  - rewrite Hd. reflexivity.
  - rewrite (IH d b Hd). destruct (is_delim c); [reflexivity|].
    destruct (split_delims_cons a) as (q & qs & Hq). rewrite Hq. reflexivity.
Qed.

(** Tokenizing two texts joined by a delimiter gives the tokens of the first
    followed by those of the second: the tokenizer treats every delimiter
    alike and ignores record structure (rounds included). *)
Theorem tokenize_app_delim :
  forall a d b, is_delim d = true ->
  tokenize (a ++ String d b) = (tokenize a ++ tokenize b)%list.
Proof.
  intros a d b Hd. unfold tokenize.
  rewrite split_delims_app_delim by exact Hd.
  rewrite map_app, filter_app. reflexivity.
Qed.

Lemma tokenize_app_delim_witness :
  tokenize "Game 1: 3 blue; 4 red" =
    (tokenize "Game 1: 3 blue" ++ tokenize " 4 red")%list.
Proof. apply (tokenize_app_delim "Game 1: 3 blue" ";"%char " 4 red"). reflexivity. Defined.

Lemma split_delims_free :
  forall s, Forall (fun q => delim_free q = true) (split_delims s).
Proof.
  induction s as [|c s IH]; simpl; [repeat constructor|].
  destruct (is_delim c) eqn:Hc; [constructor; [reflexivity | exact IH]|].
  destruct (split_delims s) as [|p ps]; [repeat constructor; unfold delim_free; simpl; now rewrite Hc|].
  inversion IH as [|? ? Hp Hps]; subst. constructor; [|exact Hps].
  unfold delim_free in *; simpl. now rewrite Hc, Hp.
Qed.

(** Every token is non-empty, contains no delimiter, and neither starts nor
    ends with whitespace. *)
Theorem tokens_clean :
  forall line t, In t (tokenize line) ->
  t <> EmptyString /\ delim_free t = true /\
  (forall c u, t = String c u -> is_whitespace c = false) /\
  (forall u c, t = (u ++ String c EmptyString) -> is_whitespace c = false).
Proof.
  intros line t Ht. unfold tokenize in Ht. apply filter_In in Ht as [Hm Hlen].
  apply in_map_iff in Hm as (q & <- & Hq).
  pose proof (trim_trimmed q) as (w1 & w2 & Hs & _ & _ & Hf & Hl).
  pose proof (proj1 (Forall_forall _ _) (split_delims_free line) q Hq) as Hfree.
  split; [intros He; rewrite He in Hlen; discriminate|].
  split; [|split; assumption].
  unfold delim_free in *. rewrite Hs, !str_forallb_app in Hfree.
  apply andb_prop in Hfree as [_ Hfree]. apply andb_prop in Hfree as [Hfree _].
  exact Hfree.
Qed.

Lemma tokens_clean_witness :
  delim_free "blue" = true.
Proof.
  apply (tokens_clean "Game 1: 3 blue" "blue"). vm_compute. auto 10.
Defined.

Lemma trim_start_clean :
  forall t, (forall c u, t = String c u -> is_whitespace c = false) ->
  trim_start t = t.
Proof.
  intros [|c u] H; [reflexivity|]. simpl. now rewrite (H c u eq_refl).
Qed.

Lemma trim_end_clean :
  forall t, (forall u c, t = (u ++ String c EmptyString) -> is_whitespace c = false) ->
  trim_end t = t.
Proof.
  induction t as [|c r IH]; intros H; [reflexivity|]. simpl.
  rewrite IH by (intros u c' Hu; apply (H (String c u) c'); simpl; now rewrite Hu).
  destruct (is_whitespace c) eqn:Hc; [|reflexivity].
  destruct r as [|c' r']; [|reflexivity].
  rewrite (H EmptyString c eq_refl) in Hc. discriminate.
Qed.

(** [str::trim] is idempotent. *)
Theorem trim_idempotent : forall s, trim (trim s) = trim s.
Proof.
  intros s. pose proof (trim_trimmed s) as (w1 & w2 & _ & _ & _ & Hf & Hl).
  unfold trim at 1. rewrite trim_start_clean by exact Hf.
  apply trim_end_clean. exact Hl.
Qed.

(** ** Overflow behaviour of [solve] and [ext_solve] *)

Lemma two64_eq : (2 ^ 64)%Z = 18446744073709551616%Z.
Proof. reflexivity. Qed.

Lemma mod_in_range :
  forall z, (0 <= z mod 2 ^ 64 <= usize_max)%Z.
Proof.
  intros z. pose proof (Z.mod_pos_bound z (2 ^ 64) ltac:(rewrite two64_eq; lia)).
  rewrite usize_max_eq, two64_eq in *. lia.
Qed.

Lemma mod_small_usize :
  forall z, (0 <= z <= usize_max)%Z -> (z mod 2 ^ 64)%Z = z.
Proof.
  intros z Hz. apply Z.mod_small. rewrite usize_max_eq, two64_eq in *. lia.
Qed.

Lemma wrap_release :
  forall z, (0 <= z)%Z -> wrap Release z = Ok (z mod 2 ^ 64)%Z.
Proof.
  intros z Hz. unfold wrap. destruct (z <=? usize_max)%Z eqn:E; [|reflexivity].
  apply Z.leb_le in E. rewrite mod_small_usize by lia. reflexivity.
Qed.

Lemma wrap_debug :
  forall z, wrap Debug z = Ok z /\ (z <= usize_max)%Z \/
            wrap Debug z = Panic Overflow /\ (usize_max < z)%Z.
Proof.
  intros z. unfold wrap. destruct (z <=? usize_max)%Z eqn:E.
  - left. apply Z.leb_le in E. auto.
  - right. apply Z.leb_gt in E. auto.
Qed.

Lemma solve_lines_release :
  forall lines gs rx, Forall2 line_record lines gs -> (0 <= rx <= usize_max)%Z ->
  solve_lines Release lines rx = Ok ((rx + validity_sum gs) mod 2 ^ 64)%Z.
Proof.
  intros lines gs rx H; revert rx.
  induction H as [|l g ls gs Hr Hrs IH]; intros rx H0; simpl.
  - rewrite Z.add_0_r, mod_small_usize by exact H0. reflexivity.
  - rewrite (solve_line_spec _ _ Hr). simpl.
    pose proof (line_record_id_range _ _ Hr) as Hid.
    destruct (pairs_valid (game_pairs g)).
    + unfold add_usize. rewrite wrap_release by lia. simpl.
      rewrite IH by apply mod_in_range. f_equal.
      rewrite Z.add_mod_idemp_l by (rewrite two64_eq; lia). f_equal; lia.
    + rewrite IH by exact H0. f_equal; f_equal; lia.
Qed.

(** A release build of [solve] returns, for every well-formed file, the sum
    of the ids of the records within limits modulo 2^64: the additions wrap
    around and never abort. *)
Theorem solve_release_wraps :
  forall f lines gs,
  init f = Ok lines -> Forall2 line_record lines gs ->
  solve Release f = Ok (validity_sum gs mod 2 ^ 64)%Z.
Proof.
  intros f lines gs Hi Hr. unfold solve. rewrite Hi. simpl.
  rewrite (solve_lines_release lines gs 0 Hr) by (rewrite usize_max_eq; lia).
  reflexivity.
Qed.

Lemma solve_release_wraps_witness :
  solve Release big_ids_file = Ok (validity_sum big_ids_games mod 2 ^ 64)%Z.
Proof.
  apply (solve_release_wraps big_ids_file
           ["Game 18446744073709551615: 1 red"; "Game 1: 1 red"]);
    [vm_compute; reflexivity | repeat constructor; solve_line_record].
Defined.

Lemma solve_lines_debug_overflow :
  forall lines gs rx, Forall2 line_record lines gs -> (0 <= rx <= usize_max)%Z ->
  (usize_max < rx + validity_sum gs)%Z ->
  solve_lines Debug lines rx = Panic Overflow.
Proof.
  intros lines gs rx H; revert rx.
  induction H as [|l g ls gs Hr Hrs IH]; intros rx H0 Hb; simpl in *.
  - lia.
  - rewrite (solve_line_spec _ _ Hr). simpl.
    pose proof (line_record_id_range _ _ Hr) as Hid.
    destruct (pairs_valid (game_pairs g)).
    + unfold add_usize.
      destruct (wrap_debug (rx + game_id g)) as [[-> Hle] | [-> _]];
        [|reflexivity].
      simpl. apply IH; lia.
    + apply IH; lia.
Qed.

(** A debug build of [solve] on a well-formed file returns the sum of the
    ids of the records within limits when it fits in [usize], and aborts
    with an overflow otherwise. *)
Theorem solve_debug_result :
  forall f lines gs,
  init f = Ok lines -> Forall2 line_record lines gs ->
  solve Debug f =
    if (validity_sum gs <=? usize_max)%Z then Ok (validity_sum gs)
    else Panic Overflow.
Proof.
  intros f lines gs Hi Hr. unfold solve. rewrite Hi. simpl.
  destruct (validity_sum gs <=? usize_max)%Z eqn:E.
  - apply Z.leb_le in E. rewrite (solve_lines_spec Debug lines gs 0 Hr) by lia.
    reflexivity.
  - apply Z.leb_gt in E. apply (solve_lines_debug_overflow lines gs 0 Hr);
      rewrite ?usize_max_eq in *; lia.
Qed.

Lemma solve_debug_result_witness :
  solve Debug big_ids_file = Panic Overflow.
Proof.
  refine (eq_trans (solve_debug_result big_ids_file
             ["Game 18446744073709551615: 1 red"; "Game 1: 1 red"] big_ids_games
             _ _) _).
  - vm_compute; reflexivity.
  - repeat constructor; solve_line_record.
  - vm_compute; reflexivity.
Defined.

Lemma ext_line_release_tokens :
  forall idt pts g, pair_tokens (game_pairs g) pts ->
  ext_line Release ("Game" :: idt :: pts) = Ok (power g mod 2 ^ 64)%Z.
Proof.
  intros idt pts g Hp.
  unfold ext_line. simpl.
  rewrite (ext_pairs_spec _ _ Hp). rewrite !reduce_None_l. simpl.
  pose proof (pair_tokens_range _ _ Hp) as Hr.
  rewrite !opt_max_unwrap by exact Hr.
  pose proof (max_count_range Red _ Hr); pose proof (max_count_range Green _ Hr);
  pose proof (max_count_range Blue _ Hr).
  unfold mul_usize, power.
  rewrite wrap_release by lia. cbn [bind].
  rewrite wrap_release by (apply Z.mul_nonneg_nonneg; [apply mod_in_range | lia]).
  cbn [bind].
  rewrite wrap_release by (apply Z.mul_nonneg_nonneg; [apply mod_in_range | lia]).
  cbn [bind]. f_equal.
  rewrite !Z.mul_mod_idemp_l by (rewrite two64_eq; lia).
  rewrite <- Z.mul_assoc, Z.mul_mod_idemp_l by (rewrite two64_eq; lia).
  f_equal; ring.
Qed.

Lemma ext_line_release :
  forall line g, line_record line g ->
  ext_line Release (tokenize line) = Ok (power g mod 2 ^ 64)%Z.
Proof.
  intros line g (idt & pts & Ht & _ & Hp).
  rewrite Ht. apply ext_line_release_tokens; exact Hp.
Qed.

Lemma ext_lines_release :
  forall lines gs rx, Forall2 line_record lines gs -> (0 <= rx <= usize_max)%Z ->
  ext_lines Release lines rx = Ok ((rx + power_sum gs) mod 2 ^ 64)%Z.
Proof.
  intros lines gs rx H; revert rx.
  induction H as [|l g ls gs Hr Hrs IH]; intros rx H0; simpl.
  - rewrite Z.add_0_r, mod_small_usize by exact H0. reflexivity.
  - rewrite (ext_line_release _ _ Hr). cbn [bind]. unfold add_usize.
    pose proof (mod_in_range (power g)).
    rewrite wrap_release by lia. cbn [bind].
    rewrite IH by apply mod_in_range. f_equal.
    rewrite Z.add_mod_idemp_l by (rewrite two64_eq; lia).
    replace (rx + power g mod 2 ^ 64 + power_sum gs)%Z
      with (power g mod 2 ^ 64 + (rx + power_sum gs))%Z by ring.
    rewrite Z.add_mod_idemp_l by (rewrite two64_eq; lia).
    f_equal; ring.
Qed.

(** A release build of [ext_solve] returns, for every well-formed file, the
    sum of the records' powers modulo 2^64: products and additions wrap
    around and never abort. *)
Theorem ext_solve_release_wraps :
  forall f lines gs,
  init f = Ok lines -> Forall2 line_record lines gs ->
  ext_solve Release f = Ok (power_sum gs mod 2 ^ 64)%Z.
Proof.
  intros f lines gs Hi Hr. unfold ext_solve. rewrite Hi. simpl.
  rewrite (ext_lines_release lines gs 0 Hr) by (rewrite usize_max_eq; lia).
  reflexivity.
Qed.

Lemma ext_solve_release_wraps_witness :
  ext_solve Release big_power_file = Ok (power_sum big_power_games mod 2 ^ 64)%Z.
Proof.
  apply (ext_solve_release_wraps big_power_file
           ["Game 1: 4294967296 red, 4294967296 green, 1 blue"]);
    [vm_compute; reflexivity | repeat constructor; solve_line_record].
Defined.

Lemma ext_line_debug :
  forall line g, line_record line g ->
  ext_line Debug (tokenize line) = Ok (power g) \/
  ext_line Debug (tokenize line) = Panic Overflow.
Proof.
  intros line g (idt & pts & Ht & _ & Hp).
  rewrite Ht. unfold ext_line. simpl.
  rewrite (ext_pairs_spec _ _ Hp). rewrite !reduce_None_l. simpl.
  pose proof (pair_tokens_range _ _ Hp) as Hr.
  rewrite !opt_max_unwrap by exact Hr.
  unfold mul_usize, power.
  destruct (wrap_debug (1 * max_count Red (game_pairs g))) as [[-> _]|[-> _]];
    cbn [bind]; [|right; reflexivity].
  destruct (wrap_debug (1 * max_count Red (game_pairs g) * max_count Green (game_pairs g)))
    as [[-> _]|[-> _]]; cbn [bind]; [|right; reflexivity].
  destruct (wrap_debug (1 * max_count Red (game_pairs g) * max_count Green (game_pairs g)
                        * max_count Blue (game_pairs g)))
    as [[-> _]|[-> _]]; cbn [bind]; [|right; reflexivity].
  left. f_equal. ring.
Qed.

Lemma ext_lines_debug :
  forall lines gs rx, Forall2 line_record lines gs -> (rx <= usize_max)%Z ->
  (ext_lines Debug lines rx = Ok (rx + power_sum gs)%Z /\
   (rx + power_sum gs <= usize_max)%Z) \/
  ext_lines Debug lines rx = Panic Overflow.
Proof.
  intros lines gs rx H; revert rx.
  induction H as [|l g ls gs Hr Hrs IH]; intros rx H0; simpl.
  - left. rewrite Z.add_0_r. auto.
  - destruct (ext_line_debug _ _ Hr) as [-> | ->]; cbn [bind]; [|right; reflexivity].
    unfold add_usize.
    destruct (wrap_debug (rx + power g)) as [[-> Hle]|[-> _]]; cbn [bind];
      [|right; reflexivity].
    destruct (IH (rx + power g)%Z Hle) as [[-> Hb] | ->]; [left | right; reflexivity].
    split; [f_equal|]; lia.
Qed.

(** A debug build of [ext_solve] on a well-formed file either returns the
    exact sum of the records' powers, which then fits in [usize], or aborts
    with an overflow; it never returns a wrapped value. *)
Theorem ext_solve_debug_result :
  forall f lines gs,
  init f = Ok lines -> Forall2 line_record lines gs ->
  (ext_solve Debug f = Ok (power_sum gs) /\ (power_sum gs <= usize_max)%Z) \/
  ext_solve Debug f = Panic Overflow.
Proof.
  intros f lines gs Hi Hr. unfold ext_solve. rewrite Hi. simpl.
  destruct (ext_lines_debug lines gs 0 Hr) as [[-> Hb] | ->];
    [rewrite usize_max_eq; lia | left | right; reflexivity].
  split; [f_equal|]; lia.
Qed.

Lemma ext_solve_debug_result_witness :
  ext_solve Debug sample_file = Ok 60%Z.
Proof.
  destruct (ext_solve_debug_result sample_file
    ["Game 1: 3 blue, 4 red; 1 red, 2 green, 6 blue; 2 green";
     "Game 2: 1 blue, 2 green; 3 green, 4 blue, 1 red; 1 green, 1 blue"]
    [mkGame 1 [(3, Blue); (4, Red); (1, Red); (2, Green); (6, Blue); (2, Green)];
     mkGame 2 [(1, Blue); (2, Green); (3, Green); (4, Blue); (1, Red); (1, Green); (1, Blue)]]%Z)
    as [[H _] | H].
  - vm_compute; reflexivity.
  - repeat constructor; solve_line_record.
  - rewrite H. reflexivity.
  - vm_compute in H. discriminate H.
Defined.

(** ** Debug and release builds *)

(** The result of a debug build agrees with the release build's unless it
    is an overflow abort. *)
Definition agrees {A} (d r : outcome A) : Prop := d = r \/ d = Panic Overflow.

Lemma agrees_refl : forall A (m : outcome A), agrees m m.
Proof. left; reflexivity. Qed.

Lemma agrees_bind :
  forall A B (md mr : outcome A) (kd kr : A -> outcome B),
  agrees md mr -> (forall x, agrees (kd x) (kr x)) ->
  agrees (bind md kd) (bind mr kr).
Proof.
  intros A B md mr kd kr [-> | ->] Hk; [|right; reflexivity].
  destruct mr as [a|e|k]; simpl; [apply Hk | left; reflexivity | left; reflexivity].
Qed.

Lemma wrap_agrees : forall z, agrees (wrap Debug z) (wrap Release z).
Proof.
  intros z. unfold wrap, agrees. destruct (z <=? usize_max)%Z; auto.
Qed.

Lemma power_loop_agrees :
  forall cs gp, agrees (power_loop Debug gp cs) (power_loop Release gp cs).
Proof.
  induction cs as [|c cs IH]; intros gp; simpl; [apply agrees_refl|].
  apply agrees_bind; [apply wrap_agrees | intros x; apply IH].
Qed.

Lemma ext_line_agrees :
  forall ts, agrees (ext_line Debug ts) (ext_line Release ts).
Proof.
  intros ts. unfold ext_line.
  apply agrees_bind; [apply agrees_refl|]. intros t0.
  destruct (String.eqb "Game" t0); [|apply agrees_refl].
  apply agrees_bind; [apply agrees_refl|]. intros mv. apply power_loop_agrees.
Qed.

Lemma solve_lines_agrees :
  forall lines rx, agrees (solve_lines Debug lines rx) (solve_lines Release lines rx).
Proof.
  induction lines as [|cv lines IH]; intros rx; simpl; [apply agrees_refl|].
  apply agrees_bind; [apply agrees_refl|]. intros [id valid].
  destruct valid; [|apply IH].
  apply agrees_bind; [apply wrap_agrees | intros x; apply IH].
Qed.

Lemma ext_lines_agrees :
  forall lines rx, agrees (ext_lines Debug lines rx) (ext_lines Release lines rx).
Proof.
  induction lines as [|cv lines IH]; intros rx; simpl; [apply agrees_refl|].
  apply agrees_bind; [apply ext_line_agrees|]. intros gp.
  apply agrees_bind; [apply wrap_agrees | intros x; apply IH].
Qed.

(** On every file, well-formed or not, a debug build of [solve] and of
    [ext_solve] returns what a release build returns (the same sum, the
    same I/O error, the same abort), unless the debug build aborts with an
    overflow. *)
Theorem debug_release_agree :
  forall f,
  (solve Debug f = solve Release f \/ solve Debug f = Panic Overflow) /\
  (ext_solve Debug f = ext_solve Release f \/ ext_solve Debug f = Panic Overflow).
Proof.
  intros f. split.
  - apply (agrees_bind _ _ (init f) (init f)); [apply agrees_refl|].
    intros lines. apply solve_lines_agrees.
  - apply (agrees_bind _ _ (init f) (init f)); [apply agrees_refl|].
    intros lines. apply ext_lines_agrees.
Qed.

(** ** The order of a record's pairs *)

Lemma pairs_valid_perm :
  forall ps ps', Permutation ps ps' -> pairs_valid ps = pairs_valid ps'.
Proof.
  unfold pairs_valid. induction 1 as [| x ps ps' _ IH | x y ps | ps ps' ps'' _ IH1 _ IH2].
  - reflexivity.
  - simpl. rewrite IH. reflexivity.
  - simpl. destruct x as [n c], y as [m d].
    rewrite !andb_assoc, (andb_comm (m <=? ceiling d)%Z). reflexivity.
  - congruence.
Qed.

Lemma opt_max_perm :
  forall col ps ps', Permutation ps ps' -> opt_max col ps = opt_max col ps'.
Proof.
  intros col. induction 1 as [| x ps ps' _ IH | x y ps | ps ps' ps'' _ IH1 _ IH2].
  - reflexivity.
  - destruct x as [n c]. simpl. rewrite IH. reflexivity.
  - destruct x as [n c], y as [m d]. simpl.
    destruct (colour_eqb d col), (colour_eqb c col); try reflexivity.
    destruct (opt_max col ps); simpl; f_equal; lia.
  - congruence.
Qed.

(** Reordering the (count, colour) pairs of a record changes neither its
    outcome in [solve] (its id and validity) nor its outcome in
    [ext_solve] (its power), in either build. *)
Theorem pair_order_irrelevant :
  forall idt ps ps' pts pts',
  pair_tokens ps pts -> pair_tokens ps' pts' -> Permutation ps ps' ->
  solve_line ("Game" :: idt :: pts) = solve_line ("Game" :: idt :: pts') /\
  (forall prof, ext_line prof ("Game" :: idt :: pts) = ext_line prof ("Game" :: idt :: pts')).
Proof.
  intros idt ps ps' pts pts' Hp Hp' Hperm. split.
  - unfold solve_line. simpl.
    rewrite (check_pairs_spec _ _ Hp), (check_pairs_spec _ _ Hp'), (pairs_valid_perm _ _ Hperm).
    reflexivity.
  - intros prof. unfold ext_line. simpl.
    rewrite (ext_pairs_spec _ _ Hp), (ext_pairs_spec _ _ Hp').
    rewrite !(opt_max_perm _ _ _ Hperm). reflexivity.
Qed.

Lemma pair_order_irrelevant_witness :
  solve_line (tokenize "Game 5: 20 red, 1 blue") = Ok (5%Z, false) /\
  solve_line ["Game"; "5"; "20"; "red"; "1"; "blue"] =
    solve_line ["Game"; "5"; "1"; "blue"; "20"; "red"] /\
  ext_line Debug ["Game"; "5"; "20"; "red"; "1"; "blue"] =
    ext_line Debug ["Game"; "5"; "1"; "blue"; "20"; "red"].
Proof.
  assert (Hp : pair_tokens [(20, Red); (1, Blue)]%Z ["20"; "red"; "1"; "blue"])
    by (repeat constructor).
  assert (Hp' : pair_tokens [(1, Blue); (20, Red)]%Z ["1"; "blue"; "20"; "red"])
    by (repeat constructor).
  assert (Hperm : Permutation [(20, Red); (1, Blue)]%Z [(1, Blue); (20, Red)]%Z)
    by apply perm_swap.
  destruct (pair_order_irrelevant "5" _ _ _ _ Hp Hp' Hperm) as [H1 H2].
  split; [vm_compute; reflexivity|]. split; [exact H1 | apply H2].
Defined.

(** ** The line labels of [solve] and [ext_solve]

    Both build [PagedIterator::init(reader.iter(), reader.length())]: the
    slice iterator over the lines, with the number of lines as the page
    length. *)

Lemma paged_slice_exhausted :
  forall (A : Type) n (pl pn ln : nat),
  run (paged_next (S := list A) slice_next) n (mkPaged pl pn ln []) = repeat None n.
Proof.
  intros A n. induction n as [|n IH]; intros pl pn ln; [reflexivity|].
  simpl. f_equal. apply IH.
Qed.

Lemma paged_slice_from :
  forall (A : Type) (lines : list A) n j, (j <= length lines)%nat ->
  run (paged_next slice_next) n (mkPaged (length lines) 1 j (skipn j lines)) =
    map (fun i => option_map (fun x => (1, S i, x)%nat) (nth_error lines i)) (seq j n).
Proof.
  intros A lines n. induction n as [|n IH]; intros j Hj; [reflexivity|].
  destruct (skipn j lines) as [|x r] eqn:E.
  - assert (j = length lines)
      by (pose proof (length_skipn j lines) as Hl; rewrite E in Hl; simpl in Hl; lia).
    rewrite paged_slice_exhausted.
    symmetry. transitivity (map (fun _ : nat => @None (nat * nat * A)) (seq j (S n)));
      [| rewrite map_const, length_seq; reflexivity].
    apply map_ext_in. intros i Hi. apply in_seq in Hi.
    rewrite (proj2 (nth_error_None lines i)) by lia. reflexivity.
  - destruct (skipn_cons_nth lines j x r E) as [Hn Hs].
    assert (Hlt : (j < length lines)%nat)
      by (apply nth_error_Some; rewrite Hn; discriminate).
    simpl run. unfold paged_next at 1. cbn [iter slice_next page_length line_number page_number].
    replace (length lines <? j + 1)%nat with false by (symmetry; apply Nat.ltb_ge; lia).
    simpl seq; cbn [map]. rewrite Hn. simpl option_map. f_equal.
    + rewrite Nat.add_1_r. reflexivity.
    + rewrite <- Hs. replace (S j) with (j + 1)%nat by lia. apply IH. lia.
Qed.

(** The iterator [solve] and [ext_solve] walk never starts a second page:
    its [k]-th item, for [k] from 1 to the number of lines, is the [k]-th
    line labelled page 1, line [k]; every call after the last line returns
    [None]. *)
Theorem solve_labels_single_page :
  forall (lines : list string) n,
  run (paged_next slice_next) n (paged_init lines (length lines)) =
    map (fun i => option_map (fun x => (1, S i, x)%nat) (nth_error lines i)) (seq 0 n).
Proof.
  intros lines n. unfold paged_init.
  change lines with (skipn 0 lines) at 2.
  apply paged_slice_from. lia.
Qed.

(** ** C1 and C2: the overflowing case *)

Lemma ext_line_debug_tokens :
  forall idt pts g, pair_tokens (game_pairs g) pts ->
  ((max_count Red (game_pairs g) * max_count Green (game_pairs g) <= usize_max)%Z /\
   (power g <= usize_max)%Z ->
   ext_line Debug ("Game" :: idt :: pts) = Ok (power g)) /\
  (~ ((max_count Red (game_pairs g) * max_count Green (game_pairs g) <= usize_max)%Z /\
      (power g <= usize_max)%Z) ->
   ext_line Debug ("Game" :: idt :: pts) = Panic Overflow).
Proof.
  intros idt pts g Hp. unfold ext_line. simpl.
  rewrite (ext_pairs_spec _ _ Hp). rewrite !reduce_None_l. simpl.
  pose proof (pair_tokens_range _ _ Hp) as Hr.
  rewrite !opt_max_unwrap by exact Hr.
  pose proof (max_count_range Red _ Hr).
  unfold mul_usize, power.
  rewrite (wrap_in_range Debug (1 * max_count Red (game_pairs g))) by lia. cbn [bind].
  rewrite !Z.mul_1_l.
  destruct (wrap_debug (max_count Red (game_pairs g) * max_count Green (game_pairs g)))
    as [[-> H2]|[-> H2]]; cbn [bind].
  - destruct (wrap_debug (max_count Red (game_pairs g) * max_count Green (game_pairs g)
                          * max_count Blue (game_pairs g)))
      as [[-> H3]|[-> H3]]; cbn [bind].
    + split; [intros _; reflexivity | intros Hn; exfalso; apply Hn; split; assumption].
    + split; [intros [_ Hb]; lia | reflexivity].
  - split; [intros [Ha _]; lia | reflexivity].
Qed.

Lemma ext_lines_debug_exact :
  forall lines gs rx, Forall2 line_record lines gs -> (0 <= rx <= usize_max)%Z ->
  ~ (Forall (fun g => max_count Red (game_pairs g) * max_count Green (game_pairs g)
                      <= usize_max)%Z gs /\ (rx + power_sum gs <= usize_max)%Z) ->
  ext_lines Debug lines rx = Panic Overflow.
Proof.
  intros lines gs rx H; revert rx.
  induction H as [|l g ls gs Hr Hrs IH]; intros rx H0 Hn.
  - exfalso. apply Hn. split; [constructor | simpl; lia].
  - pose proof (power_nonneg _ _ Hr) as Hpg.
    pose proof (power_sum_nonneg _ _ Hrs) as Hps.
    destruct Hr as (idt & pts & Ht & _ & Hp).
    simpl. rewrite Ht.
    destruct (Z_le_gt_dec (max_count Red (game_pairs g) * max_count Green (game_pairs g))
                          usize_max) as [Hrg|Hrg];
      [destruct (Z_le_gt_dec (power g) usize_max) as [Hpw|Hpw]|].
    + rewrite (proj1 (ext_line_debug_tokens idt pts g Hp) (conj Hrg Hpw)). cbn [bind].
      unfold add_usize.
      destruct (wrap_debug (rx + power g)) as [[-> Hle]|[-> _]]; [|reflexivity].
      cbn [bind]. apply IH; [lia|].
      intros [HF Hs]. apply Hn. split; [constructor; assumption | simpl; lia].
    + rewrite (proj2 (ext_line_debug_tokens idt pts g Hp)) by lia. reflexivity.
    + rewrite (proj2 (ext_line_debug_tokens idt pts g Hp)) by lia. reflexivity.
Qed.

(** C1 (as amended): for every well-formed file, if the sum of the ids of
    the records all of whose pairs are within their ceilings fits in
    [usize], [solve] returns that sum in both build profiles (a record with
    a pair over its ceiling contributes nothing); if it exceeds [usize], a
    debug build aborts on the overflow of [rx += id] and a release build
    returns the sum modulo 2^64. *)
Theorem solve_validity_sum :
  forall f lines gs,
    init f = Ok lines ->
    Forall2 line_record lines gs ->
    ((validity_sum gs <= usize_max)%Z ->
       forall prof, solve prof f = Ok (validity_sum gs)) /\
    ((usize_max < validity_sum gs)%Z ->
       solve Debug f = Panic Overflow /\
       solve Release f = Ok (validity_sum gs mod 2 ^ 64)%Z).
Proof.
  intros f lines gs Hi Hr. unfold solve. rewrite Hi. cbn [bind]. split.
  - intros Hb prof. rewrite (solve_lines_spec prof lines gs 0) by (auto; lia).
    reflexivity.
  - intros Hb. split.
    + apply (solve_lines_debug_overflow lines gs 0 Hr); rewrite ?usize_max_eq in *; lia.
    + rewrite (solve_lines_release lines gs 0 Hr) by (rewrite usize_max_eq; lia).
      reflexivity.
Qed.

Lemma solve_validity_sum_witness :
  solve Debug sample_file = Ok 3%Z /\
  solve Debug big_ids_file = Panic Overflow /\
  solve Release big_ids_file = Ok 0%Z.
Proof.
  destruct (solve_validity_sum sample_file
    ["Game 1: 3 blue, 4 red; 1 red, 2 green, 6 blue; 2 green";
     "Game 2: 1 blue, 2 green; 3 green, 4 blue, 1 red; 1 green, 1 blue"]
    [mkGame 1 [(3, Blue); (4, Red); (1, Red); (2, Green); (6, Blue); (2, Green)];
     mkGame 2 [(1, Blue); (2, Green); (3, Green); (4, Blue); (1, Red); (1, Green); (1, Blue)]]%Z)
    as [Hs _]; [vm_compute; reflexivity | repeat constructor; solve_line_record |].
  destruct (solve_validity_sum big_ids_file
    ["Game 18446744073709551615: 1 red"; "Game 1: 1 red"] big_ids_games)
    as [_ Hb]; [vm_compute; reflexivity | repeat constructor; solve_line_record |].
  destruct Hb as [Hd Hrel]; [vm_compute; reflexivity|].
  split; [rewrite (Hs ltac:(vm_compute; discriminate) Debug); reflexivity|].
  split; [exact Hd | rewrite Hrel; vm_compute; reflexivity].
Defined.

(** C2 (as amended): for every well-formed file in which, for each record,
    the partial product (max red) * (max green) fits in [usize] and the
    sum of the powers fits in [usize], [ext_solve] returns the sum of the
    records' powers (product of per-colour maxima, 0 for an absent
    colour), in both build profiles; a record mentioning only
    [3 blue, 4 red] has power 0. Otherwise a [usize] multiplication or
    addition overflows: a debug build aborts, a release build returns the
    sum of the powers modulo 2^64. *)
Theorem ext_solve_power_sum :
  (forall prof f lines gs,
    init f = Ok lines ->
    Forall2 line_record lines gs ->
    Forall (fun g => max_count Red (game_pairs g) * max_count Green (game_pairs g)
                     <= usize_max)%Z gs ->
    (power_sum gs <= usize_max)%Z ->
    ext_solve prof f = Ok (power_sum gs)) /\
  (forall f lines gs,
    init f = Ok lines ->
    Forall2 line_record lines gs ->
    ~ (Forall (fun g => max_count Red (game_pairs g) * max_count Green (game_pairs g)
                        <= usize_max)%Z gs /\ (power_sum gs <= usize_max)%Z) ->
    ext_solve Debug f = Panic Overflow /\
    ext_solve Release f = Ok (power_sum gs mod 2 ^ 64)%Z) /\
  (forall prof, ext_solve prof (Present [nl "Game 1: 3 blue, 4 red"]) = Ok 0%Z).
Proof.
  split; [|split].
  - intros prof f lines gs Hi Hr Hm Hb. unfold ext_solve. rewrite Hi. simpl.
    rewrite (ext_lines_spec prof lines gs 0) by (auto; lia). reflexivity.
  - intros f lines gs Hi Hr Hn. unfold ext_solve. rewrite Hi. cbn [bind]. split.
    + apply (ext_lines_debug_exact lines gs 0 Hr); [rewrite usize_max_eq; lia|].
      rewrite Z.add_0_l. exact Hn.
    + rewrite (ext_lines_release lines gs 0 Hr) by (rewrite usize_max_eq; lia).
      reflexivity.
  - destruct prof; vm_compute; reflexivity.
Qed.

Lemma ext_solve_power_sum_witness :
  ext_solve Debug sample_file = Ok 60%Z /\
  ext_solve Debug big_power_file = Panic Overflow /\
  ext_solve Release big_power_file = Ok 0%Z.
Proof.
  split.
  - rewrite (proj1 ext_solve_power_sum Debug sample_file
      ["Game 1: 3 blue, 4 red; 1 red, 2 green, 6 blue; 2 green";
       "Game 2: 1 blue, 2 green; 3 green, 4 blue, 1 red; 1 green, 1 blue"]
      [mkGame 1 [(3, Blue); (4, Red); (1, Red); (2, Green); (6, Blue); (2, Green)];
       mkGame 2 [(1, Blue); (2, Green); (3, Green); (4, Blue); (1, Red); (1, Green); (1, Blue)]]%Z).
    + reflexivity.
    + vm_compute; reflexivity.
    + repeat constructor; solve_line_record.
    + repeat constructor; vm_compute; discriminate.
    + vm_compute; discriminate.
  - destruct (proj1 (proj2 ext_solve_power_sum) big_power_file
      ["Game 1: 4294967296 red, 4294967296 green, 1 blue"] big_power_games)
      as [Hd Hrel].
    + vm_compute; reflexivity.
    + repeat constructor; solve_line_record.
    + intros [_ H]. vm_compute in H. apply H. reflexivity.
    + split; [exact Hd | rewrite Hrel; vm_compute; reflexivity].
Defined.

(** ** [ext_solve] does not read the game id *)

(** [ext_solve] never parses a record's id token: a record with
    well-formed pairs gets the same outcome whatever its second token is,
    numeric or not. A release build returns its power modulo 2^64; a debug
    build returns its power when (max red) * (max green) and the power fit
    in [usize] and aborts with an overflow otherwise. [solve] aborts on a
    second token that is not a number. *)
Theorem ext_solve_ignores_id :
  forall idt pts g,
  pair_tokens (game_pairs g) pts ->
  ext_line Release ("Game" :: idt :: pts) = Ok (power g mod 2 ^ 64)%Z /\
  ((max_count Red (game_pairs g) * max_count Green (game_pairs g) <= usize_max)%Z /\
   (power g <= usize_max)%Z ->
   ext_line Debug ("Game" :: idt :: pts) = Ok (power g)) /\
  (~ ((max_count Red (game_pairs g) * max_count Green (game_pairs g) <= usize_max)%Z /\
      (power g <= usize_max)%Z) ->
   ext_line Debug ("Game" :: idt :: pts) = Panic Overflow) /\
  (parse_usize idt = None -> solve_line ("Game" :: idt :: pts) = Panic ParseFailed).
Proof.
  intros idt pts g Hp. split; [apply ext_line_release_tokens; exact Hp|].
  split; [apply (ext_line_debug_tokens idt pts g Hp)|].
  split; [apply (ext_line_debug_tokens idt pts g Hp)|].
  intros Hid. unfold solve_line. simpl. rewrite Hid. reflexivity.
Qed.

Lemma ext_solve_ignores_id_witness :
  tokenize "Game x: 2 red, 3 green, 4 blue" = ["Game"; "x"; "2"; "red"; "3"; "green"; "4"; "blue"] /\
  solve_line ["Game"; "x"; "2"; "red"; "3"; "green"; "4"; "blue"] = Panic ParseFailed /\
  ext_line Release ["Game"; "x"; "2"; "red"; "3"; "green"; "4"; "blue"] = Ok 24%Z /\
  ext_line Debug ["Game"; "x"; "2"; "red"; "3"; "green"; "4"; "blue"] = Ok 24%Z /\
  ext_line Debug ["Game"; "7"; "4294967296"; "red"; "4294967296"; "green"] = Panic Overflow.
Proof.
  split; [vm_compute; reflexivity|].
  destruct (ext_solve_ignores_id "x" ["2"; "red"; "3"; "green"; "4"; "blue"]
              (mkGame 0 [(2, Red); (3, Green); (4, Blue)]%Z))
    as (H1 & H2 & _ & H4); [repeat constructor |].
  split; [apply H4; vm_compute; reflexivity|].
  split; [rewrite H1; vm_compute; reflexivity|].
  split; [rewrite H2; [reflexivity | vm_compute; split; discriminate]|].
  destruct (ext_solve_ignores_id "7" ["4294967296"; "red"; "4294967296"; "green"]
              (mkGame 7 [(4294967296, Red); (4294967296, Green)]%Z))
    as (_ & _ & H3 & _); [repeat constructor |].
  apply H3. intros [H _]. vm_compute in H. apply H. reflexivity.
Defined.
